(** * The message dispatcher of [app/queueing_extended.py]

    A shallow embedding of the dispatch and coordination layer: the
    per-channel queue registry, the debounce coalescer, the channel workers,
    the orchestrator pool with its busy/idle broadcast, and the sequential
    memory lane.

    Conventions.
    - The module's globals are fields of a state record that every function
      threads explicitly; a coroutine is a function in a small monad whose
      results are: returned, raised an exception, or parked on a full queue.
    - The event loop is cooperative: code between two [await]s that really
      suspend runs without interleaving, so such a slice is one transition.
    - Time is counted in clock ticks ([Z]); [delay_seconds] is a number of
      ticks.  Log lines keep their level and the constant part of their text.
    - A [str] is a [string] whose characters are the code points below 256. *)

From Stdlib Require Import ZArith Lia Ascii String.
From stdpp Require Import gmap strings list fin_maps sorting.

(** ** Python values, strings and dicts *)

Module Py.

(** A value stored in a message dict: [None] or a [str]. *)
Abbreviation value := (option string).

(** A message: a [dict] from field names to values. *)
Abbreviation dict := (gmap string (option string)).

(** [d.get(k)]: the value, [None] when the key is absent. *)
Definition dict_get (d : dict) (k : string) : value :=
  match d !! k with
  | Some v => v
  | None => None
  end.

(** [d.get(k, dflt)]. *)
Definition dict_get_default (d : dict) (k : string) (dflt : value) : value :=
  match d !! k with
  | Some v => v
  | None => dflt
  end.

(** [str.isspace] on one character (code points below 256): tab to carriage
    return, the four separators 28..31, the space, NEL and the no-break
    space. *)
Definition is_space (c : ascii) : bool :=
  let n := nat_of_ascii c in
  (Nat.leb 9 n && Nat.leb n 13) || (Nat.leb 28 n && Nat.leb n 32)
  || Nat.eqb n 133 || Nat.eqb n 160.

Fixpoint lstrip (s : string) : string :=
  match s with
  | String c r => if is_space c then lstrip r else s
  | EmptyString => EmptyString
  end.

Definition rstrip (s : string) : string :=
  String.rev (lstrip (String.rev s)).

(** [s.strip()]. *)
Definition strip (s : string) : string := rstrip (lstrip s).

(** The one-character string of a line feed. *)
Definition newline : string := String "010"%char EmptyString.

(** [sep.join(parts)]. *)
Fixpoint join (sep : string) (parts : list string) : string :=
  match parts with
  | [] => EmptyString
  | p :: rest =>
      match rest with
      | [] => p
      | _ :: _ => p +:+ sep +:+ join sep rest
      end
  end.

(** [f"{v}"] for a value: [None] prints as the four letters of its name. *)
Definition format (v : value) : string :=
  match v with
  | Some s => s
  | None => "None"
  end.

(** Truth value of a [str]: non-empty. *)
Definition truthy (s : string) : bool :=
  match s with
  | EmptyString => false
  | String _ _ => true
  end.

(** [sub in s]. *)
Definition contains (sub s : string) : bool :=
  match String.index 0 sub s with
  | Some _ => true
  | None => false
  end.

End Py.

(** ** Channel queue registry and debounce coalescer *)

Module Dispatcher.
Import Py.

(** A channel job: the dict [{"message": message}]. *)
Record job := Job { message : dict }.

(** An [asyncio.Queue]: its capacity and its content, oldest first. *)
Record queue := Queue { maxsize : nat; items : list job }.

(** A pending debounce entry: [{"message": ..., "timestamp": ...}]. *)
Record entry := Entry { e_message : dict; timestamp : Z }.

(** Where a [delayed_process] task stands: in [asyncio.sleep], parked in
    [queue.put] on a full queue, cancelled, or finished. *)
Inductive task_status :=
| Sleeping
| Putting (q : nat) (j : job)
| Cancelled
| Finished.

(** A [delayed_process] task with the variables its closure captured. *)
Record task := Task {
  debounce_key : string;
  user_id : value;
  channel_id : value;
  deadline : Z;
  status : task_status
}.

Inductive level := DEBUG | INFO | WARNING | ERROR.

(** The module's globals, the queue objects ever created ([heap], a queue
    object is named by its index), the tasks ever created, the clock and
    the log. *)
Record state := State {
  now : Z;
  message_queues : gmap (option string) nat;
  heap : list queue;
  _accumulated_messages : gmap string (list entry);
  _debounce_timers : gmap string nat;
  tasks : list task;
  log : list (level * string)
}.

Definition initial : state :=
  State 0%Z ∅ [] ∅ ∅ [] [].

Definition set_now (t : Z) (s : state) : state :=
  State t (message_queues s) (heap s) (_accumulated_messages s)
        (_debounce_timers s) (tasks s) (log s).

Definition set_message_queues (m : gmap (option string) nat) (s : state) : state :=
  State (now s) m (heap s) (_accumulated_messages s)
        (_debounce_timers s) (tasks s) (log s).

Definition set_heap (h : list queue) (s : state) : state :=
  State (now s) (message_queues s) h (_accumulated_messages s)
        (_debounce_timers s) (tasks s) (log s).

Definition set_accumulated (a : gmap string (list entry)) (s : state) : state :=
  State (now s) (message_queues s) (heap s) a
        (_debounce_timers s) (tasks s) (log s).

Definition set_timers (t : gmap string nat) (s : state) : state :=
  State (now s) (message_queues s) (heap s) (_accumulated_messages s)
        t (tasks s) (log s).

Definition set_tasks (t : list task) (s : state) : state :=
  State (now s) (message_queues s) (heap s) (_accumulated_messages s)
        (_debounce_timers s) t (log s).

Definition set_log (l : list (level * string)) (s : state) : state :=
  State (now s) (message_queues s) (heap s) (_accumulated_messages s)
        (_debounce_timers s) (tasks s) l.

(** *** The coroutine monad *)

Inductive exn := KeyError | IndexError | AttributeError.

(** A call returns, raises, or is parked in [queue.put] because queue [q]
    is full (the state is the one at the suspension). *)
Inductive result (A : Type) :=
| Ok (a : A) (s : state)
| Raise (e : exn) (s : state)
| Blocked (q : nat) (j : job) (s : state).
Arguments Ok {A} a s.
Arguments Raise {A} e s.
Arguments Blocked {A} q j s.

Definition M (A : Type) : Type := state → result A.

#[export] Instance M_ret : MRet M := λ A a s, Ok a s.

#[export] Instance M_bind : MBind M := λ A B f m s,
  match m s with
  | Ok a s' => f a s'
  | Raise e s' => Raise e s'
  | Blocked q j s' => Blocked q j s'
  end.

Definition raise {A} (e : exn) : M A := λ s, Raise e s.

Definition gets {A} (f : state → A) : M A := λ s, Ok (f s) s.

Definition modify (f : state → state) : M unit := λ s, Ok () (f s).

(** [try: body / except Exception: handler].  A parked body stays parked. *)
Definition try_except {A} (body : M A) (handler : exn → M A) : M A := λ s,
  match body s with
  | Raise e s' => handler e s'
  | r => r
  end.

Definition logging (l : level) (msg : string) : M unit :=
  modify (λ s, set_log (log s ++ [(l, msg)]) s).

(** *** Queue objects *)

(** [asyncio.Queue(maxsize=n)]: a fresh queue object. *)
Definition new_Queue (n : nat) : M nat := λ s,
  Ok (length (heap s)) (set_heap (heap s ++ [Queue n []]) s).

(** [Queue.full()]: a capacity of 0 means unbounded. *)
Definition full (q : queue) : bool :=
  match maxsize q with
  | O => false
  | S _ => Nat.leb (maxsize q) (length (items q))
  end.

(** [await queue.put(j)]: appends, or parks the caller when the queue is
    full.  A reference outside the heap does not occur (see [heap_wf]) and
    is modelled as a [KeyError]. *)
Definition queue_put (q : nat) (j : job) : M unit := λ s,
  match heap s !! q with
  | Some Q =>
      if full Q then Blocked q j s
      else Ok () (set_heap (<[q := Queue (maxsize Q) (items Q ++ [j])]> (heap s)) s)
  | None => Raise KeyError s
  end.

(** *** The registry *)

Definition get_or_create_channel_queue (channel_id : value) : M nat :=
  queues ← gets message_queues;
  (if decide (is_Some (queues !! channel_id)) then mret ()
   else
     q ← new_Queue 100;
     modify (λ s, set_message_queues (<[channel_id := q]> (message_queues s)) s);;
     logging INFO "[QUEUE] Created new queue for channel");;
  queues ← gets message_queues;
  match queues !! channel_id with
  | Some q => mret q
  | None => raise KeyError
  end.

Definition enqueue_message (message : dict) : M unit :=
  let channel_id := dict_get message "channel" in
  queue ← get_or_create_channel_queue channel_id;
  queue_put queue (Job message);;
  logging INFO "[QUEUE] Message enqueued to channel".

(** *** The debounce coalescer *)

(** [_accumulated_messages[key].append(e)]. *)
Definition accumulated_append (key : string) (e : entry) : M unit :=
  acc ← gets _accumulated_messages;
  match acc !! key with
  | Some l => modify (set_accumulated (<[key := l ++ [e]]> acc))
  | None => raise KeyError
  end.

(** [Task.cancel()]: a task that sleeps or is parked in [put] is stopped at
    that point, where its [except asyncio.CancelledError] logs and raises
    again; a task that is over is left alone. *)
Definition cancelled_task (t : task) : task :=
  Task (debounce_key t) (user_id t) (channel_id t) (deadline t) Cancelled.

Definition task_cancel (i : nat) : M unit :=
  ts ← gets tasks;
  match ts !! i with
  | Some t =>
      match status t with
      | Sleeping | Putting _ _ =>
          modify (set_tasks (<[i := cancelled_task t]> ts));;
          logging INFO "[DEBOUNCE] Timer cancelled"
      | Cancelled | Finished => mret ()
      end
  | None => raise KeyError
  end.

(** [asyncio.create_task(delayed_process())]: the new task sleeps until
    [now + delay_seconds]. *)
Definition create_task (key : string) (user channel : value) (delay_seconds : Z)
  : M nat := λ s,
  Ok (length (tasks s))
     (set_tasks (tasks s ++ [Task key user channel (now s + delay_seconds)%Z Sleeping]) s).

Definition debounced_enqueue_message (message : dict) (delay_seconds : Z) : M unit :=
  let user_id := dict_get message "user" in
  let channel_id := dict_get message "channel" in
  let debounce_key := format channel_id +:+ ":" +:+ format user_id in
  if decide (delay_seconds = 0%Z) then
    logging INFO "[DEBOUNCE] Immediate processing (delay=0)";;
    enqueue_message message
  else
    acc ← gets _accumulated_messages;
    (if decide (is_Some (acc !! debounce_key)) then
       logging INFO "[DEBOUNCE] Additional message, resetting timer"
     else
       modify (set_accumulated (<[debounce_key := []]> acc));;
       logging INFO "[DEBOUNCE] First message, starting timer");;
    t ← gets now;
    accumulated_append debounce_key (Entry message t);;
    timers ← gets _debounce_timers;
    match timers !! debounce_key with
    | Some old =>
        task_cancel old;;
        logging INFO "[DEBOUNCE] Cancelled previous timer"
    | None => mret ()
    end;;
    new ← create_task debounce_key user_id channel_id delay_seconds;
    modify (λ s, set_timers (<[debounce_key := new]> (_debounce_timers s)) s).

(** [v.strip()]: [None] has no such method. *)
Definition str_strip (v : value) : M string :=
  match v with
  | Some s => mret (strip s)
  | None => raise AttributeError
  end.

(** The loop over [accumulated] that fills [merged_text_parts]. *)
Fixpoint merge_texts (accumulated : list entry) (merged_text_parts : list string)
  : M (list string) :=
  match accumulated with
  | [] => mret merged_text_parts
  | msg_data :: rest =>
      text ← str_strip (dict_get_default (e_message msg_data) "text" (Some EmptyString));
      merge_texts rest
        (if truthy text then merged_text_parts ++ [text] else merged_text_parts)
  end.

(** [accumulated[i]]. *)
Definition list_getitem {A} (l : list A) (i : nat) : M A :=
  match l !! i with
  | Some x => mret x
  | None => raise IndexError
  end.

(** Lines 118-120: the cleanup at the end of the merge. *)
Definition cleanup (key : string) : M unit :=
  acc ← gets _accumulated_messages;
  (if decide (is_Some (acc !! key)) then modify (set_accumulated (delete key acc))
   else raise KeyError);;
  timers ← gets _debounce_timers;
  if decide (is_Some (timers !! key)) then modify (set_timers (delete key timers))
  else mret ().

(** Lines 125-131: the handler of [except Exception]. *)
Definition on_error (key : string) (e : exn) : M unit :=
  logging ERROR "[DEBOUNCE] Error in delayed processing";;
  acc ← gets _accumulated_messages;
  (if decide (is_Some (acc !! key)) then modify (set_accumulated (delete key acc))
   else mret ());;
  timers ← gets _debounce_timers;
  if decide (is_Some (timers !! key)) then modify (set_timers (delete key timers))
  else mret ().

(** Lines 92-120: what [delayed_process] does once its sleep is over. *)
Definition merge_and_forward (key : string) : M unit :=
  acc ← gets _accumulated_messages;
  match acc !! key with
  | Some accumulated =>
      logging INFO "[DEBOUNCE] Timer expired, merging messages";;
      first ← list_getitem accumulated 0;
      let base_message := e_message first in
      merged_text_parts ← merge_texts accumulated [];
      match merged_text_parts with
      | _ :: _ =>
          let base_message :=
            <["text" := Some (join newline merged_text_parts)]> base_message in
          logging INFO "[DEBOUNCE] Merged text";;
          enqueue_message base_message
      | [] => logging WARNING "[DEBOUNCE] No text content found"
      end;;
      cleanup key
  | None => mret ()
  end.

Definition delayed_process (key : string) : M unit :=
  try_except (merge_and_forward key) (on_error key).

(** What is left of [delayed_process] when its parked [put] goes on: the
    put, the last line of [enqueue_message], the cleanup. *)
Definition delayed_process_resumed (key : string) (q : nat) (j : job) : M unit :=
  try_except
    (queue_put q j;;
     logging INFO "[QUEUE] Message enqueued to channel";;
     cleanup key)
    (on_error key).

(** *** The event loop *)

Definition set_status (i : nat) (st : task_status) (s : state) : state :=
  match tasks s !! i with
  | Some t =>
      set_tasks (<[i := Task (debounce_key t) (user_id t) (channel_id t) (deadline t) st]>
                   (tasks s)) s
  | None => s
  end.

(** The state a coroutine leaves behind. *)
Definition state_of {A} (r : result A) : state :=
  match r with
  | Ok _ s => s
  | Raise _ s => s
  | Blocked _ _ s => s
  end.

(** Task [i] ran up to its end or up to a parked [put]. *)
Definition settle (i : nat) (r : result unit) : state :=
  match r with
  | Ok _ s => set_status i Finished s
  | Raise _ s => set_status i Finished s
  | Blocked q j s => set_status i (Putting q j) s
  end.

(** The sleep of task [i] is over. *)
Definition fire (i : nat) (s : state) : state :=
  match tasks s !! i with
  | Some t =>
      match status t with
      | Sleeping => settle i (delayed_process (debounce_key t) s)
      | _ => s
      end
  | None => s
  end.

(** The parked [put] of task [i] is tried again. *)
Definition resume (i : nat) (s : state) : state :=
  match tasks s !! i with
  | Some t =>
      match status t with
      | Putting q j => settle i (delayed_process_resumed (debounce_key t) q j s)
      | _ => s
      end
  | None => s
  end.

Definition due (t : Z) (tk : task) : bool :=
  match status tk with
  | Sleeping => Z.leb (deadline tk) t
  | _ => false
  end.

(** Among the tasks that are due at [t], the one with the smallest deadline,
    the oldest of them when several share it; [i] is the index of the head
    of [ts]. *)
Fixpoint earliest (t : Z) (ts : list task) (i : nat) (best : option (nat * Z))
  : option (nat * Z) :=
  match ts with
  | [] => best
  | tk :: rest =>
      let best' :=
        if due t tk then
          match best with
          | Some (_, d) => if Z.ltb (deadline tk) d then Some (i, deadline tk) else best
          | None => Some (i, deadline tk)
          end
        else best in
      earliest t rest (S i) best'
  end.

Fixpoint run_timers (fuel : nat) (t : Z) (s : state) : state :=
  match fuel with
  | O => s
  | S fuel' =>
      match earliest t (tasks s) 0 None with
      | Some (i, _) => run_timers fuel' t (fire i s)
      | None => s
      end
  end.

(** The clock reaches [t]: every timer due by then has run, in the order
    of the deadlines. *)
Definition advance (t : Z) (s : state) : state :=
  run_timers (length (tasks s)) t (set_now (Z.max (now s) t) s).

(** [queue.get()] by a worker of queue object [q], when a job is there. *)
Definition queue_get (q : nat) (s : state) : option (job * state) :=
  match heap s !! q with
  | Some Q =>
      match items Q with
      | j :: rest => Some (j, set_heap (<[q := Queue (maxsize Q) rest]> (heap s)) s)
      | [] => None
      end
  | None => None
  end.

(** What happens to the dispatcher: calls of its entry points by producers,
    the clock, parked puts going on, and workers taking jobs. *)
Inductive op :=
| Enqueue (message : dict)
| DebouncedEnqueue (message : dict) (delay_seconds : Z)
| Advance (t : Z)
| Resume (i : nat)
| ProducerPut (q : nat) (j : job)
| WorkerGet (q : nat).

Definition exec (o : op) (s : state) : state :=
  match o with
  | Enqueue m => state_of (enqueue_message m s)
  | DebouncedEnqueue m d => state_of (debounced_enqueue_message m d s)
  | Advance t => advance t s
  | Resume i => resume i s
  | ProducerPut q j =>
      state_of ((queue_put q j;; logging INFO "[QUEUE] Message enqueued to channel") s)
  | WorkerGet q =>
      match queue_get q s with
      | Some (_, s') => s'
      | None => s
      end
  end.

Definition run (ops : list op) (s : state) : state :=
  foldl (λ s o, exec o s) s ops.

Definition reachable (s : state) : Prop := ∃ ops, s = run ops initial.

(** The state after [get_or_create_channel_queue] created the queue of [k]. *)
Definition created (k : value) (s : state) : state :=
  set_log (log s ++ [(INFO, "[QUEUE] Created new queue for channel")])
    (set_message_queues (<[k := length (heap s)]> (message_queues s))
       (set_heap (heap s ++ [Queue 100 []]) s)).

(** The state after a put that found room. *)
Definition put_done (q : nat) (j : job) (s : state) : state :=
  match heap s !! q with
  | Some Q => set_heap (<[q := Queue (maxsize Q) (items Q ++ [j])]> (heap s)) s
  | None => s
  end.

(** The state after the last line of [enqueue_message]. *)
Definition enqueued (s : state) : state :=
  set_log (log s ++ [(INFO, "[QUEUE] Message enqueued to channel")]) s.

(** *** Relations between the state before and after a coroutine *)

Section respects.
Context (R : state → state → Prop) `{!Reflexive R, !Transitive R}.

Definition respects {A} (m : M A) : Prop := ∀ s, R s (state_of (m s)).

Lemma respects_ret {A} (a : A) : respects (mret a).
Proof. intros s. simpl. reflexivity. Qed.

Lemma respects_raise {A} e : respects (@raise A e).
Proof. intros s. simpl. reflexivity. Qed.

Lemma respects_gets {A} (f : state → A) : respects (gets f).
Proof. intros s. simpl. reflexivity. Qed.

Lemma respects_bind {A B} (m : M A) (f : A → M B) :
  respects m → (∀ a, respects (f a)) → respects (m ≫= f).
Proof.
  intros Hm Hf s. specialize (Hm s). unfold mbind, M_bind.
  destruct (m s) as [a s'|e s'|q j s']; simpl in *; [|done..].
  etrans; [exact Hm|apply Hf].
Qed.

Lemma respects_try {A} (m : M A) (h : exn → M A) :
  respects m → (∀ e, respects (h e)) → respects (try_except m h).
Proof.
  intros Hm Hh s. specialize (Hm s). unfold try_except.
  destruct (m s) as [a s'|e s'|q j s']; simpl in *; [done| |done].
  etrans; [exact Hm|apply Hh].
Qed.

Lemma respects_modify (f : state → state) :
  (∀ s, R s (f s)) → respects (modify f).
Proof. intros Hf s. apply Hf. Qed.

End respects.

Definition extends (s s' : state) : Prop :=
  (∀ k q, message_queues s !! k = Some q → message_queues s' !! k = Some q) ∧
  (∀ q Q, heap s !! q = Some Q →
          ∃ Q', heap s' !! q = Some Q' ∧ maxsize Q' = maxsize Q).

Definition heap_wf (s : state) : Prop :=
  ∀ k q, message_queues s !! k = Some q →
         ∃ Q, heap s !! q = Some Q ∧ maxsize Q = 100.

Definition grows (s s' : state) : Prop :=
  extends s s' ∧ (heap_wf s → heap_wf s').

#[export] Instance grows_refl : Reflexive grows.
Proof. intros s. split; [split|]; eauto. Qed.

#[export] Instance grows_trans : Transitive grows.
Proof.
  intros s1 s2 s3 [[Ha Hb] Hc] [[Ha' Hb'] Hc']. split; [split|]; eauto.
  intros q Q HQ. destruct (Hb q Q HQ) as (Q' & HQ' & Hm).
  destruct (Hb' q Q' HQ') as (Q'' & HQ'' & Hm'). exists Q''. split; [done|congruence].
Qed.

Lemma grows_same s s' :
  message_queues s' = message_queues s → heap s' = heap s → grows s s'.
Proof.
  intros Hq Hh. unfold grows, extends, heap_wf. rewrite Hq, Hh. eauto.
Qed.

Lemma grows_put s q Q j :
  heap s !! q = Some Q →
  grows s (set_heap (<[q := Queue (maxsize Q) j]> (heap s)) s).
Proof.
  intros HQ.
  assert (Hext : extends s (set_heap (<[q := Queue (maxsize Q) j]> (heap s)) s)).
  { split; [done|]. simpl. intros q' Q' HQ'.
    destruct (decide (q = q')) as [->|Hne].
    - rewrite list_lookup_insert_eq by (by eapply lookup_lt_Some).
      eexists. split; [done|]. simpl. congruence.
    - rewrite list_lookup_insert_ne by done. eauto. }
  split; [done|]. intros Hwf k q' Hk. simpl in Hk.
  destruct (Hwf k q' Hk) as (Q' & HQ' & Hm).
  destruct (proj2 Hext q' Q' HQ') as (Q'' & HQ'' & Hm'). exists Q''. split; [done|congruence].
Qed.

Abbreviation keeps := (respects grows).

Lemma keeps_logging l msg : keeps (logging l msg).
Proof. intros s. by apply grows_same. Qed.

Lemma keeps_queue_put q j : keeps (queue_put q j).
Proof.
  intros s. unfold queue_put. destruct (heap s !! q) as [Q|] eqn:HQ; [|reflexivity].
  destruct (full Q); [reflexivity|]. simpl. by apply grows_put.
Qed.

Lemma get_or_create_eq k s :
  get_or_create_channel_queue k s =
  match message_queues s !! k with
  | Some q => Ok q s
  | None => Ok (length (heap s)) (created k s)
  end.
Proof.
  unfold get_or_create_channel_queue, mbind, M_bind, gets, mret, M_ret.
  destruct (message_queues s !! k) as [q|] eqn:Hq.
  - rewrite decide_True by eauto. cbn. by rewrite Hq.
  - rewrite decide_False by (by intros [? ?]).
    cbn -[lookup insert]. by rewrite lookup_insert_eq.
Qed.

Lemma keeps_get_or_create k : keeps (get_or_create_channel_queue k).
Proof.
  intros s. rewrite get_or_create_eq.
  destruct (message_queues s !! k) as [q|] eqn:Hn; [reflexivity|].
  cbn [state_of]. unfold grows, extends, heap_wf, created.
  split; [split|]; cbn -[lookup insert].
  - intros k' q' Hk'. rewrite lookup_insert_ne; [done|congruence].
  - intros q' Q' HQ'. exists Q'. split; [|done]. by apply lookup_app_l_Some.
  - intros Hwf k' q'. destruct (decide (k = k')) as [->|Hne].
    + rewrite lookup_insert_eq. intros [= <-]. eexists.
      rewrite lookup_app_r, Nat.sub_diag by done. done.
    + rewrite lookup_insert_ne by done. intros Hk'.
      destruct (Hwf k' q' Hk') as (Q & HQ & Hm). exists Q. split; [|done].
      by apply lookup_app_l_Some.
Qed.

Lemma keeps_enqueue_message m : keeps (enqueue_message m).
Proof.
  unfold enqueue_message. apply respects_bind; [apply _..|apply keeps_get_or_create|].
  intros q. apply respects_bind; [apply _..|apply keeps_queue_put|].
  intros _. apply keeps_logging.
Qed.

Lemma keeps_modify_same (f : state → state) :
  (∀ s, message_queues (f s) = message_queues s) →
  (∀ s, heap (f s) = heap s) → keeps (modify f).
Proof. intros Hq Hh. apply respects_modify. intros s. by apply grows_same. Qed.

Lemma keeps_create_task key u c d : keeps (create_task key u c d).
Proof. intros s. by apply grows_same. Qed.

Ltac keeps_step :=
  first
    [ apply respects_ret | apply respects_raise | apply respects_gets
    | apply keeps_logging | apply keeps_queue_put | apply keeps_get_or_create
    | apply keeps_enqueue_message | apply keeps_create_task
    | apply keeps_modify_same; [done|done]
    | apply respects_bind; [apply _..| |intros ?]
    | apply respects_try; [apply _..| |intros ?]
    | case_decide | case_match ].

Ltac keeps_tac := repeat keeps_step.

Lemma keeps_task_cancel i : keeps (task_cancel i).
Proof. unfold task_cancel. keeps_tac. Qed.

Lemma keeps_accumulated_append key e : keeps (accumulated_append key e).
Proof. unfold accumulated_append. keeps_tac. Qed.

Lemma keeps_debounced m d : keeps (debounced_enqueue_message m d).
Proof.
  unfold debounced_enqueue_message. keeps_tac;
    first [apply keeps_task_cancel | apply keeps_accumulated_append].
Qed.

Lemma keeps_merge_texts l parts : keeps (merge_texts l parts).
Proof.
  revert parts. induction l as [|e l IH]; intros parts; simpl; [keeps_tac|].
  apply respects_bind; [apply _..| |intros text; apply IH].
  unfold str_strip. keeps_tac.
Qed.

Lemma keeps_cleanup key : keeps (cleanup key).
Proof. unfold cleanup. keeps_tac. Qed.

Lemma keeps_on_error key e : keeps (on_error key e).
Proof. unfold on_error. keeps_tac. Qed.

Lemma keeps_delayed_process key : keeps (delayed_process key).
Proof.
  unfold delayed_process, merge_and_forward, list_getitem.
  keeps_tac; first [apply keeps_merge_texts | apply keeps_cleanup | apply keeps_on_error].
Qed.

Lemma keeps_delayed_process_resumed key q j : keeps (delayed_process_resumed key q j).
Proof.
  unfold delayed_process_resumed.
  keeps_tac; first [apply keeps_cleanup | apply keeps_on_error].
Qed.

Lemma grows_set_status i st s : grows s (set_status i st s).
Proof. unfold set_status. destruct (tasks s !! i); [by apply grows_same|reflexivity]. Qed.

Lemma grows_settle i (m : M unit) s : keeps m → grows s (settle i (m s)).
Proof.
  intros Hm. specialize (Hm s). unfold settle.
  destruct (m s); simpl in Hm; (etrans; [exact Hm|apply grows_set_status]).
Qed.

Lemma grows_fire i s : grows s (fire i s).
Proof.
  unfold fire. destruct (tasks s !! i) as [t|]; [|reflexivity].
  destruct (status t); try reflexivity.
  apply grows_settle, keeps_delayed_process.
Qed.

Lemma grows_resume i s : grows s (resume i s).
Proof.
  unfold resume. destruct (tasks s !! i) as [t|]; [|reflexivity].
  destruct (status t); try reflexivity.
  apply grows_settle, keeps_delayed_process_resumed.
Qed.

Lemma grows_run_timers fuel t s : grows s (run_timers fuel t s).
Proof.
  revert s. induction fuel as [|fuel IH]; intros s; simpl; [reflexivity|].
  destruct (earliest t (tasks s) 0 None) as [[i d]|]; [|reflexivity].
  etrans; [apply grows_fire|apply IH].
Qed.

Lemma grows_advance t s : grows s (advance t s).
Proof.
  unfold advance. etrans; [|apply grows_run_timers]. by apply grows_same.
Qed.

Lemma grows_queue_get q s j s' : queue_get q s = Some (j, s') → grows s s'.
Proof.
  unfold queue_get. destruct (heap s !! q) as [Q|] eqn:HQ; [|done].
  destruct (items Q) as [|j' rest]; [done|]. intros [= <- <-]. by apply grows_put.
Qed.

Lemma grows_exec o s : grows s (exec o s).
Proof.
  destruct o as [m|m d|t|i|q j|q]; simpl.
  - apply keeps_enqueue_message.
  - apply keeps_debounced.
  - apply grows_advance.
  - apply grows_resume.
  - apply (respects_bind grows); [apply keeps_queue_put|intros ?; apply keeps_logging].
  - destruct (queue_get q s) as [[j s']|] eqn:Hg; [by eapply grows_queue_get|reflexivity].
Qed.

Lemma grows_run ops s : grows s (run ops s).
Proof.
  revert s. induction ops as [|o ops IH]; intros s; simpl; [reflexivity|].
  etrans; [apply grows_exec|apply IH].
Qed.

Lemma reachable_heap_wf s : reachable s → heap_wf s.
Proof.
  intros [ops ->]. apply (grows_run ops initial). intros k q Hk. simpl in Hk.
  by rewrite lookup_empty in Hk.
Qed.

Lemma reachable_run ops s : reachable s → reachable (run ops s).
Proof.
  intros [ops0 ->]. exists (ops0 ++ ops). unfold run. by rewrite foldl_app.
Qed.

Lemma get_or_create_spec s k :
  heap_wf s →
  ∃ q Q s1, get_or_create_channel_queue k s = Ok q s1
    ∧ message_queues s1 !! k = Some q
    ∧ heap s1 !! q = Some Q ∧ maxsize Q = 100
    ∧ heap_wf s1
    ∧ match message_queues s !! k with
      | Some q0 => q0 = q ∧ s1 = s
      | None => q = length (heap s) ∧ Q = Queue 100 [] ∧ s1 = created k s
      end.
Proof.
  intros Hwf. pose proof (keeps_get_or_create k s) as [_ Hwf1].
  rewrite get_or_create_eq in *. cbn [state_of] in Hwf1.
  destruct (message_queues s !! k) as [q|] eqn:Hk.
  - destruct (Hwf k q Hk) as (Q & HQ & Hm). exists q, Q, s. repeat split; eauto.
  - exists (length (heap s)), (Queue 100 []), (created k s).
    split; [done|]. split; [apply lookup_insert_eq|].
    split; [cbn; by rewrite lookup_app_r, Nat.sub_diag by done|].
    split; [done|]. split; [by apply Hwf1|]. done.
Qed.

Lemma enqueue_message_spec s m :
  heap_wf s →
  ∃ q Q s1, get_or_create_channel_queue (dict_get m "channel") s = Ok q s1
    ∧ heap s1 !! q = Some Q ∧ maxsize Q = 100
    ∧ enqueue_message m s =
        if full Q then Blocked q (Job m) s1
        else Ok () (enqueued (put_done q (Job m) s1)).
Proof.
  intros Hwf.
  destruct (get_or_create_spec s (dict_get m "channel") Hwf)
    as (q & Q & s1 & Hg & Hk & HQ & Hm & _).
  exists q, Q, s1. repeat split; try done.
  unfold enqueue_message, mbind, M_bind. rewrite Hg. unfold queue_put, put_done.
  rewrite HQ. by destruct (full Q).
Qed.

(** C9.  [get_or_create_channel_queue] is idempotent: in every reachable
    state a call for key [k] returns a queue object [q], and a second call
    returns the same object and changes nothing (no queue is created).  A
    queue created by the call is empty with capacity 100.  Whatever the
    dispatcher does afterwards, [k] stays bound to the same object and its
    capacity stays 100: the queue is never removed nor resized. *)
Theorem get_or_create_channel_queue_idempotent (s : state) (k : value) :
  reachable s →
  ∃ q s1,
    get_or_create_channel_queue k s = Ok q s1
    ∧ get_or_create_channel_queue k s1 = Ok q s1
    ∧ (message_queues s !! k = None →
       q = length (heap s) ∧ heap s1 !! q = Some (Queue 100 []))
    ∧ ∀ ops, message_queues (run ops s1) !! k = Some q
             ∧ ∃ Q, heap (run ops s1) !! q = Some Q ∧ maxsize Q = 100.
Proof.
  intros Hr. pose proof (reachable_heap_wf s Hr) as Hwf.
  destruct (get_or_create_spec s k Hwf) as (q & Q & s1 & Hg & Hk & HQ & Hm & Hwf1 & Hc).
  exists q, s1. split; [done|]. split; [|split].
  - rewrite get_or_create_eq, Hk. done.
  - intros Hn. rewrite Hn in Hc. destruct Hc as (-> & -> & ->). split; [done|].
    cbn. by rewrite lookup_app_r, Nat.sub_diag by done.
  - intros ops. destruct (grows_run ops s1) as [[Hreg Hheap] _].
    split; [by apply Hreg|]. destruct (Hheap q Q HQ) as (Q' & HQ' & Hm').
    exists Q'. split; [done|congruence].
Qed.

Lemma get_or_create_channel_queue_idempotent_witness :
  ∃ q s1,
    get_or_create_channel_queue (Some "C1") initial = Ok q s1
    ∧ get_or_create_channel_queue (Some "C1") s1 = Ok q s1
    ∧ (message_queues initial !! Some "C1" = None →
       q = length (heap initial) ∧ heap s1 !! q = Some (Queue 100 []))
    ∧ ∀ ops, message_queues (run ops s1) !! Some "C1" = Some q
             ∧ ∃ Q, heap (run ops s1) !! q = Some Q ∧ maxsize Q = 100.
Proof.
  apply (get_or_create_channel_queue_idempotent initial (Some "C1")).
  exists []. reflexivity.
Defined.

(** C10.  A payload with no [channel] field is enqueued without an
    exception: [enqueue_message] looks up the key [None], creates its queue
    on the first such call, and puts the job there (or is parked while that
    queue is full).  Every later payload without a channel goes to the same
    queue object. *)
Theorem enqueue_message_without_channel (s : state) (m : dict) :
  reachable s → m !! "channel" = None →
  ∃ q Q s1,
    get_or_create_channel_queue None s = Ok q s1
    ∧ message_queues s1 !! None = Some q
    ∧ heap s1 !! q = Some Q
    ∧ enqueue_message m s =
        (if full Q then Blocked q (Job m) s1
         else Ok () (enqueued (put_done q (Job m) s1)))
    ∧ (∀ e s', enqueue_message m s ≠ Raise e s')
    ∧ ∀ ops m', m' !! "channel" = None →
        let s2 := run ops (state_of (enqueue_message m s)) in
        ∃ Q2, heap s2 !! q = Some Q2
          ∧ enqueue_message m' s2 =
              (if full Q2 then Blocked q (Job m') s2
               else Ok () (enqueued (put_done q (Job m') s2))).
Proof.
  intros Hr Hm. pose proof (reachable_heap_wf s Hr) as Hwf.
  assert (Hch : ∀ m0 : dict, m0 !! "channel" = None → dict_get m0 "channel" = None).
  { intros m0 H0. unfold dict_get. by rewrite H0. }
  destruct (get_or_create_spec s None Hwf) as (q & Q & s1 & Hg & Hk & HQ & HmQ & Hwf1 & _).
  destruct (enqueue_message_spec s m Hwf) as (q' & Q' & s1' & Hg' & HQ' & _ & He).
  rewrite (Hch m Hm), Hg in Hg'. injection Hg' as <- <-.
  rewrite HQ in HQ'. injection HQ' as <-.
  exists q, Q, s1. split; [done|]. split; [done|]. split; [done|]. split; [done|].
  split; [intros e s'; rewrite He; by destruct (full Q)|].
  intros ops m' Hm' s2.
  assert (Hr2 : reachable s2).
  { apply reachable_run. destruct Hr as [ops0 ->].
    exists (ops0 ++ [Enqueue m]). unfold run. by rewrite foldl_app. }
  pose proof (reachable_heap_wf s2 Hr2) as Hwf2.
  assert (Hk2 : message_queues s2 !! None = Some q).
  { apply (grows_run ops (state_of (enqueue_message m s))).
    rewrite He. destruct (full Q); cbn; [done|].
    unfold put_done. rewrite HQ. done. }
  destruct (enqueue_message_spec s2 m' Hwf2) as (q2 & Q2 & s2' & Hg2 & HQ2 & _ & He2).
  rewrite (Hch m' Hm'), get_or_create_eq, Hk2 in Hg2. injection Hg2 as <- <-.
  exists Q2. done.
Qed.

Lemma enqueue_message_without_channel_witness :
  let m : dict := {["text" := Some "hi"]} in
  ∃ q Q s1,
    get_or_create_channel_queue None initial = Ok q s1
    ∧ message_queues s1 !! None = Some q
    ∧ heap s1 !! q = Some Q
    ∧ enqueue_message m initial =
        (if full Q then Blocked q (Job m) s1
         else Ok () (enqueued (put_done q (Job m) s1)))
    ∧ (∀ e s', enqueue_message m initial ≠ Raise e s')
    ∧ ∀ ops m', m' !! "channel" = None →
        let s2 := run ops (state_of (enqueue_message m initial)) in
        ∃ Q2, heap s2 !! q = Some Q2
          ∧ enqueue_message m' s2 =
              (if full Q2 then Blocked q (Job m') s2
               else Ok () (enqueued (put_done q (Job m') s2))).
Proof.
  apply (enqueue_message_without_channel initial {["text" := Some "hi"]}).
  - exists []. reflexivity.
  - reflexivity.
Defined.

(** The text of a pending entry as the merge loop reads it. *)
Definition text_of (e : entry) : value :=
  dict_get_default (e_message e) "text" (Some EmptyString).

(** The trimmed texts that are not empty, in order. *)
Fixpoint nonempty_parts (l : list entry) : list string :=
  match l with
  | [] => []
  | e :: rest =>
      match text_of e with
      | Some txt =>
          if truthy (strip txt) then strip txt :: nonempty_parts rest
          else nonempty_parts rest
      | None => nonempty_parts rest
      end
  end.

Lemma merge_texts_ok l parts s :
  Forall (λ e, is_Some (text_of e)) l →
  merge_texts l parts s = Ok (parts ++ nonempty_parts l) s.
Proof.
  intros Hl. revert parts. induction Hl as [|e l [txt He] Hl IH]; intros parts; simpl.
  - by rewrite app_nil_r.
  - unfold mbind, M_bind. fold (text_of e). rewrite He. simpl.
    rewrite IH. destruct (truthy (strip txt)); [|done].
    by rewrite <- app_assoc.
Qed.

(** The state after the cleanup of bucket [key]. *)
Definition cleaned (key : string) (s : state) : state :=
  set_timers (delete key (_debounce_timers s))
    (set_accumulated (delete key (_accumulated_messages s)) s).

Definition logged (l : list (level * string)) (s : state) : state :=
  set_log (log s ++ l) s.

Lemma cleanup_ok key s :
  is_Some (_accumulated_messages s !! key) → cleanup key s = Ok () (cleaned key s).
Proof.
  intros Hk. unfold cleanup, cleaned, mbind, M_bind, gets, modify.
  rewrite decide_True by done. cbn -[lookup delete].
  destruct (decide (is_Some (_debounce_timers s !! key))) as [Ht|Ht]; [done|].
  apply eq_None_not_Some in Ht. cbn. by rewrite (delete_id _ _ Ht).
Qed.

Lemma merge_and_forward_eq key s e0 rest :
  _accumulated_messages s !! key = Some (e0 :: rest) →
  Forall (λ e, is_Some (text_of e)) (e0 :: rest) →
  merge_and_forward key s =
    match nonempty_parts (e0 :: rest) with
    | [] =>
        Ok () (cleaned key
                 (logged [(INFO, "[DEBOUNCE] Timer expired, merging messages");
                          (WARNING, "[DEBOUNCE] No text content found")] s))
    | p :: ps =>
        (enqueue_message (<["text" := Some (join newline (p :: ps))]> (e_message e0));;
         cleanup key)
          (logged [(INFO, "[DEBOUNCE] Timer expired, merging messages");
                   (INFO, "[DEBOUNCE] Merged text")] s)
    end.
Proof.
  intros Hk Hstr. unfold merge_and_forward, mbind, M_bind, gets. rewrite Hk.
  unfold list_getitem.
  cbn -[merge_texts cleanup enqueue_message nonempty_parts join].
  rewrite merge_texts_ok by done. rewrite app_nil_l.
  destruct (nonempty_parts (e0 :: rest)) as [|p ps].
  - cbn -[lookup cleanup]. rewrite cleanup_ok by (cbn; eauto).
    unfold logged, cleaned. cbn. by rewrite <- app_assoc.
  - cbn -[lookup cleanup enqueue_message join].
    unfold logged. cbn -[lookup cleanup enqueue_message join].
    by rewrite <- app_assoc.
Qed.

(** An entry whose text is empty once trimmed (a missing text reads as the
    empty string). *)
Definition blank (e : entry) : Prop :=
  ∃ txt, text_of e = Some txt ∧ strip txt = EmptyString.

Lemma blank_parts l : Forall blank l → nonempty_parts l = [].
Proof.
  induction 1 as [|e l (txt & He & Hs) _ IH]; simpl; [done|].
  by rewrite He, Hs.
Qed.

Lemma blank_is_str l : Forall blank l → Forall (λ e, is_Some (text_of e)) l.
Proof. intros Hl. eapply Forall_impl; [exact Hl|]. intros e (txt & He & _). eauto. Qed.

Lemma set_status_fields i st s :
  let s' := set_status i st s in
  now s' = now s ∧ message_queues s' = message_queues s ∧ heap s' = heap s
  ∧ _accumulated_messages s' = _accumulated_messages s
  ∧ _debounce_timers s' = _debounce_timers s ∧ log s' = log s.
Proof. unfold set_status. by destruct (tasks s !! i). Qed.

Lemma set_status_lookup i st s t :
  tasks s !! i = Some t →
  tasks (set_status i st s) !! i
  = Some (Task (debounce_key t) (user_id t) (channel_id t) (deadline t) st).
Proof.
  intros Ht. unfold set_status. rewrite Ht. cbn.
  apply list_lookup_insert_eq. by eapply lookup_lt_Some.
Qed.

(** C8.  When the timer of a bucket expires and every accumulated text is
    empty after trimming, nothing is forwarded: no queue changes and the
    task ends without a pending put; the warning is logged; the bucket's
    pending list and its timer entry are removed. *)
Theorem empty_burst_is_dropped (s : state) (i : nat) (t : task)
    (e0 : entry) (rest : list entry) :
  tasks s !! i = Some t → status t = Sleeping →
  _accumulated_messages s !! debounce_key t = Some (e0 :: rest) →
  Forall blank (e0 :: rest) →
  let s' := fire i s in
  heap s' = heap s
  ∧ message_queues s' = message_queues s
  ∧ (status <$> tasks s' !! i) = Some Finished
  ∧ log s' = log s ++ [(INFO, "[DEBOUNCE] Timer expired, merging messages");
                       (WARNING, "[DEBOUNCE] No text content found")]
  ∧ _accumulated_messages s' = delete (debounce_key t) (_accumulated_messages s)
  ∧ _debounce_timers s' = delete (debounce_key t) (_debounce_timers s).
Proof.
  intros Ht Hst Hacc Hblank s'. subst s'. unfold fire. rewrite Ht, Hst.
  unfold delayed_process, try_except.
  rewrite (merge_and_forward_eq _ _ _ _ Hacc (blank_is_str _ Hblank)).
  rewrite (blank_parts _ Hblank). cbn [settle].
  match goal with |- context [set_status i Finished ?s0] =>
    destruct (set_status_fields i Finished s0) as (_ & -> & -> & -> & -> & ->);
    rewrite (set_status_lookup i Finished s0 t) by done
  end.
  done.
Qed.

(** The debounce key of a message. *)
Definition key_of (m : dict) : string :=
  format (dict_get m "channel") +:+ ":" +:+ format (dict_get m "user").





(** *** The clock *)






(** The coroutine of a timer leaves the task list alone. *)
Definition same_tasks (s s' : state) : Prop := tasks s' = tasks s.

#[export] Instance same_tasks_refl : Reflexive same_tasks.
Proof. by intros s. Qed.

#[export] Instance same_tasks_trans : Transitive same_tasks.
Proof. unfold same_tasks. intros s1 s2 s3 H1 H2. congruence. Qed.

Lemma same_tasks_get_or_create k :
  respects same_tasks (get_or_create_channel_queue k).
Proof. intros s. rewrite get_or_create_eq. by destruct (message_queues s !! _). Qed.

Lemma same_tasks_queue_put q j : respects same_tasks (queue_put q j).
Proof.
  intros s. unfold queue_put. destruct (heap s !! q) as [Q|]; [|done].
  by destruct (full Q).
Qed.

Ltac same_tasks_step :=
  first
    [ apply respects_ret | apply respects_raise | apply respects_gets
    | apply same_tasks_get_or_create | apply same_tasks_queue_put
    | apply respects_modify; intros ?; reflexivity
    | apply respects_bind; [apply _..| |intros ?]
    | apply respects_try; [apply _..| |intros ?]
    | case_decide | case_match ].

Lemma same_tasks_enqueue_message m : respects same_tasks (enqueue_message m).
Proof. unfold enqueue_message, logging. repeat same_tasks_step. Qed.





(** *** A burst on one bucket *)












(** A Slack message with the three fields the dispatcher reads. *)
Definition slack_message (channel user text : string) : dict :=
  <["channel" := Some channel]> (<["user" := Some user]> (<["text" := Some text]> ∅)).



Lemma empty_burst_is_dropped_witness :
  let m := slack_message "C1" "U1" "  " in
  let s := run [DebouncedEnqueue m 2000] initial in
  let s' := fire 0 s in
  heap s' = heap s
  ∧ message_queues s' = message_queues s
  ∧ (status <$> tasks s' !! 0) = Some Finished
  ∧ log s' = log s ++ [(INFO, "[DEBOUNCE] Timer expired, merging messages");
                       (WARNING, "[DEBOUNCE] No text content found")]
  ∧ _accumulated_messages s' = delete "C1:U1" (_accumulated_messages s)
  ∧ _debounce_timers s' = delete "C1:U1" (_debounce_timers s).
Proof.
  apply (empty_burst_is_dropped
           (run [DebouncedEnqueue (slack_message "C1" "U1" "  ") 2000] initial) 0
           (Task "C1:U1" (Some "U1") (Some "C1") 2000 Sleeping)
           (Entry (slack_message "C1" "U1" "  ") 0) []).
  - reflexivity.
  - reflexivity.
  - vm_compute. reflexivity.
  - constructor; [|constructor]. exists "  ". split; reflexivity.
Defined.

(** *** Debounce keys *)

Fixpoint has_colon (s : string) : bool :=
  match s with
  | EmptyString => false
  | String c r => if Ascii.eqb c ":" then true else has_colon r
  end.

Lemma colon_split c1 c2 u1 u2 :
  has_colon c1 = false → has_colon c2 = false →
  c1 +:+ ":" +:+ u1 = c2 +:+ ":" +:+ u2 → c1 = c2 ∧ u1 = u2.
Proof.
  revert c2. induction c1 as [|a c1 IH]; intros [|b c2]; cbn.
  - intros _ _ H. by simplify_eq.
  - destruct (Ascii.eqb_spec b ":") as [->|Hb]; [done|]. intros _ _ H. by simplify_eq.
  - destruct (Ascii.eqb_spec a ":") as [->|Ha]; [done|]. intros _ _ H. by simplify_eq.
  - destruct (Ascii.eqb_spec a ":") as [->|Ha]; [done|].
    destruct (Ascii.eqb_spec b ":") as [->|Hb]; [done|].
    intros H1 H2 H. simplify_eq. destruct (IH c2 H1 H2) as [-> ->]; done.
Qed.

(** Where the key does separate the buckets: messages whose channel and
    user are strings, the channel without a colon. *)
Lemma key_of_inj (m1 m2 : dict) c1 u1 c2 u2 :
  dict_get m1 "channel" = Some c1 → dict_get m1 "user" = Some u1 →
  dict_get m2 "channel" = Some c2 → dict_get m2 "user" = Some u2 →
  has_colon c1 = false → has_colon c2 = false →
  (c1, u1) ≠ (c2, u2) → key_of m1 ≠ key_of m2.
Proof.
  intros H1 H2 H3 H4 Hc1 Hc2 Hne Hk. unfold key_of in Hk.
  rewrite H1, H2, H3, H4 in Hk. simpl in Hk.
  destruct (colon_split _ _ _ _ Hc1 Hc2 Hk) as [-> ->]. done.
Qed.

(** C2.  The debounce key is the string [f"{channel_id}:{user_id}"], which
    two distinct pairs can share: the messages of (channel [a:b], user [c])
    and of (channel [a], user [b:c]) accumulate in one bucket and leave as
    one job, sent to the first message's channel under its user. *)
Theorem debounce_key_collision :
  let m1 := slack_message "a:b" "c" "x" in
  let m2 := slack_message "a" "b:c" "y" in
  let s' := run [Advance 0; DebouncedEnqueue m1 2000;
                 Advance 300; DebouncedEnqueue m2 2000;
                 Advance 2300] initial in
  (dict_get m1 "channel", dict_get m1 "user")
    ≠ (dict_get m2 "channel", dict_get m2 "user")
  ∧ key_of m1 = key_of m2
  ∧ message_queues s' !! Some "a" = None
  ∧ message_queues s' !! Some "a:b" = Some 0
  ∧ ∃ j, heap s' = [Queue 100 [j]]
         ∧ message j !! "text" = Some (Some ("x" +:+ newline +:+ "y"))
         ∧ message j !! "user" = Some (Some "c").
Proof.
  split; [vm_compute; discriminate|]. split; [reflexivity|].
  split; [vm_compute; reflexivity|]. split; [vm_compute; reflexivity|].
  eexists. split; [vm_compute; reflexivity|]. split; vm_compute; reflexivity.
Qed.

(** *** The queues stay within their capacity *)

Definition bounded (s : state) : Prop :=
  Forall (λ Q, maxsize Q = 100%nat ∧ (length (items Q) ≤ 100)%nat) (heap s).

Definition stays_bounded (s s' : state) : Prop := bounded s → bounded s'.

#[export] Instance stays_bounded_refl : Reflexive stays_bounded.
Proof. intros s Hb. exact Hb. Qed.

#[export] Instance stays_bounded_trans : Transitive stays_bounded.
Proof. intros s1 s2 s3 H1 H2 Hb. apply H2, H1, Hb. Qed.

Lemma stays_bounded_same s s' : heap s' = heap s → stays_bounded s s'.
Proof. unfold stays_bounded, bounded. by intros ->. Qed.

Lemma full_false Q : maxsize Q = 100%nat → full Q = false → (length (items Q) < 100)%nat.
Proof.
  unfold full. intros ->. intros H%Nat.leb_gt. lia.
Qed.

Lemma stays_bounded_queue_put q j : respects stays_bounded (queue_put q j).
Proof.
  intros s. unfold queue_put. destruct (heap s !! q) as [Q|] eqn:HQ; [|reflexivity].
  destruct (full Q) eqn:Hf; [reflexivity|]. simpl. intros Hb.
  unfold bounded in *. simpl. apply Forall_insert; [done|].
  destruct (proj1 (Forall_lookup _ _) Hb _ _ HQ) as [Hm Hl]. simpl.
  split; [done|]. rewrite length_app. simpl. pose proof (full_false Q Hm Hf). lia.
Qed.

Lemma stays_bounded_get_or_create k : respects stays_bounded (get_or_create_channel_queue k).
Proof.
  intros s. rewrite get_or_create_eq.
  destruct (message_queues s !! k) as [q|]; [reflexivity|].
  intros Hb. unfold bounded in *. simpl. apply Forall_app. split; [done|].
  apply Forall_singleton. simpl. split; [done|lia].
Qed.

Lemma stays_bounded_create_task key u c d : respects stays_bounded (create_task key u c d).
Proof. intros s. by apply stays_bounded_same. Qed.

Ltac bounded_step :=
  first
    [ apply respects_ret | apply respects_raise | apply respects_gets
    | apply stays_bounded_queue_put | apply stays_bounded_get_or_create
    | apply stays_bounded_create_task
    | apply respects_modify; intros ?; by apply stays_bounded_same
    | apply respects_bind; [apply _..| |intros ?]
    | apply respects_try; [apply _..| |intros ?]
    | case_decide | case_match ].

Lemma stays_bounded_enqueue_message m : respects stays_bounded (enqueue_message m).
Proof. unfold enqueue_message, logging. repeat bounded_step. Qed.

Lemma stays_bounded_debounced m d : respects stays_bounded (debounced_enqueue_message m d).
Proof.
  unfold debounced_enqueue_message, task_cancel, accumulated_append.
  repeat first [apply stays_bounded_enqueue_message | unfold logging; bounded_step].
Qed.

Lemma stays_bounded_merge_texts l parts : respects stays_bounded (merge_texts l parts).
Proof.
  revert parts. induction l as [|e l IH]; intros parts; simpl; [repeat bounded_step|].
  apply respects_bind; [apply _..| |intros text; apply IH].
  unfold str_strip. repeat bounded_step.
Qed.

Lemma stays_bounded_delayed_process key : respects stays_bounded (delayed_process key).
Proof.
  unfold delayed_process, merge_and_forward, on_error, cleanup, list_getitem.
  repeat first [apply stays_bounded_enqueue_message | apply stays_bounded_merge_texts
               | unfold logging; bounded_step].
Qed.

Lemma stays_bounded_delayed_process_resumed key q j :
  respects stays_bounded (delayed_process_resumed key q j).
Proof.
  unfold delayed_process_resumed, on_error, cleanup.
  repeat first [unfold logging; bounded_step].
Qed.

Lemma stays_bounded_set_status i st s : stays_bounded s (set_status i st s).
Proof.
  unfold set_status. destruct (tasks s !! i); [by apply stays_bounded_same|reflexivity].
Qed.

Lemma stays_bounded_settle i (m : M unit) s :
  respects stays_bounded m → stays_bounded s (settle i (m s)).
Proof.
  intros Hm. specialize (Hm s). unfold settle.
  destruct (m s); simpl in Hm; (etrans; [exact Hm|apply stays_bounded_set_status]).
Qed.

Lemma stays_bounded_run_timers fuel t s : stays_bounded s (run_timers fuel t s).
Proof.
  revert s. induction fuel as [|fuel IH]; intros s; simpl; [reflexivity|].
  destruct (earliest t (tasks s) 0 None) as [[i d]|]; [|reflexivity].
  etrans; [|apply IH]. unfold fire.
  destruct (tasks s !! i) as [tk|]; [|reflexivity].
  destruct (status tk); try reflexivity.
  apply stays_bounded_settle, stays_bounded_delayed_process.
Qed.

Lemma stays_bounded_exec o s : stays_bounded s (exec o s).
Proof.
  destruct o as [m|m d|t|i|q j|q]; simpl.
  - apply stays_bounded_enqueue_message.
  - apply stays_bounded_debounced.
  - unfold advance. etrans; [|apply stays_bounded_run_timers]. by apply stays_bounded_same.
  - unfold resume. destruct (tasks s !! i) as [tk|]; [|reflexivity].
    destruct (status tk); try reflexivity.
    apply stays_bounded_settle, stays_bounded_delayed_process_resumed.
  - apply (respects_bind stays_bounded); [apply stays_bounded_queue_put|intros ?].
    unfold logging. bounded_step.
  - unfold queue_get. destruct (heap s !! q) as [Q|] eqn:HQ; [|reflexivity].
    destruct (items Q) as [|j rest] eqn:Hi; [reflexivity|].
    intros Hb. unfold bounded in *. simpl. apply Forall_insert; [done|].
    destruct (proj1 (Forall_lookup _ _) Hb _ _ HQ) as [Hm Hl]. simpl.
    rewrite Hi in Hl. simpl in Hl. split; [done|lia].
Qed.

Lemma stays_bounded_run ops s : stays_bounded s (run ops s).
Proof.
  revert s. induction ops as [|o ops IH]; intros s Hs; [exact Hs|].
  change (bounded (run ops (exec o s))). apply IH. by apply stays_bounded_exec.
Qed.

(** Every channel queue the dispatcher ever holds has capacity 100 and at
    most 100 jobs, whatever the producers, the timers and the workers do. *)
Theorem channel_queue_within_capacity (s : state) (q : nat) (Q : queue) :
  reachable s → heap s !! q = Some Q →
  maxsize Q = 100%nat ∧ (length (items Q) ≤ 100)%nat.
Proof.
  intros [ops ->] HQ.
  assert (Hb : bounded (run ops initial)) by (apply stays_bounded_run; constructor).
  exact (proj1 (Forall_lookup _ _) Hb _ _ HQ).
Qed.

Lemma channel_queue_within_capacity_witness :
  let s := run [Enqueue (slack_message "C1" "U1" "a")] initial in
  heap s !! 0%nat = Some (Queue 100 [Job (slack_message "C1" "U1" "a")]) ∧
  maxsize (Queue 100 [Job (slack_message "C1" "U1" "a")]) = 100%nat ∧
  (length (items (Queue 100 [Job (slack_message "C1" "U1" "a")])) ≤ 100)%nat.
Proof.
  intros s. split; [reflexivity|].
  apply (channel_queue_within_capacity s 0).
  - by exists [Enqueue (slack_message "C1" "U1" "a")].
  - reflexivity.
Defined.

(** *** The debounce state is private to the debounce path *)

Definition same_buckets (s s' : state) : Prop :=
  _accumulated_messages s' = _accumulated_messages s ∧
  _debounce_timers s' = _debounce_timers s ∧
  tasks s' = tasks s.

#[export] Instance same_buckets_refl : Reflexive same_buckets.
Proof. by intros s. Qed.

#[export] Instance same_buckets_trans : Transitive same_buckets.
Proof. intros s1 s2 s3 (? & ? & ?) (? & ? & ?). repeat split; congruence. Qed.

Lemma same_buckets_enqueue_message m : respects same_buckets (enqueue_message m).
Proof.
  unfold enqueue_message.
  apply respects_bind; [apply _..| |intros q; apply respects_bind; [apply _..| |intros _]].
  - intros s. rewrite get_or_create_eq. by destruct (message_queues s !! _).
  - intros s. unfold queue_put. destruct (heap s !! q) as [Q|]; [|done].
    by destruct (full Q).
  - by intros s.
Qed.

(** With [delay_seconds = 0] the message goes straight to its channel
    queue: the call is [enqueue_message] after one log line, and it leaves
    the buckets, the timers and the timer tasks as they are, so a burst
    that is pending for the same key is neither flushed nor cancelled. *)
Theorem debounce_zero_delay_bypasses_buckets (s : state) (m : dict) :
  debounced_enqueue_message m 0 s =
    enqueue_message m (logged [(INFO, "[DEBOUNCE] Immediate processing (delay=0)")] s) ∧
  same_buckets s (state_of (debounced_enqueue_message m 0 s)).
Proof.
  assert (debounced_enqueue_message m 0 s =
    enqueue_message m (logged [(INFO, "[DEBOUNCE] Immediate processing (delay=0)")] s))
    as Heq by done.
  split; [done|]. rewrite Heq.
  etrans; [|apply same_buckets_enqueue_message]. done.
Qed.

(** *** A text that is no string *)

Lemma merge_texts_raises l parts s :
  Exists (λ e, text_of e = None) l →
  merge_texts l parts s = Raise AttributeError s.
Proof.
  intros Hl. revert parts. induction l as [|e l IH]; intros parts.
  - by apply Exists_nil in Hl.
  - simpl. unfold mbind, M_bind. fold (text_of e).
    destruct (text_of e) as [txt|] eqn:He; simpl; [|done].
    apply IH. apply Exists_cons in Hl as [Hl|Hl]; [congruence|done].
Qed.

(** When the timer of a bucket expires and one of its messages has
    ["text": None], the [strip] call raises; [except Exception] logs an
    error and cleans up: the bucket and its timer are removed and nothing
    is forwarded, so the texts of the whole burst are lost. *)
Theorem burst_with_null_text_is_dropped (s : state) (i : nat) (t : task)
    (e0 : entry) (rest : list entry) :
  tasks s !! i = Some t →
  status t = Sleeping →
  _accumulated_messages s !! debounce_key t = Some (e0 :: rest) →
  Exists (λ e, text_of e = None) (e0 :: rest) →
  let s' := fire i s in
  heap s' = heap s ∧
  message_queues s' = message_queues s ∧
  (status <$> tasks s' !! i) = Some Finished ∧
  log s' = log s ++ [(INFO, "[DEBOUNCE] Timer expired, merging messages");
                     (ERROR, "[DEBOUNCE] Error in delayed processing")] ∧
  _accumulated_messages s' = delete (debounce_key t) (_accumulated_messages s) ∧
  _debounce_timers s' = delete (debounce_key t) (_debounce_timers s).
Proof.
  intros Ht Hst Hacc Hnull s'.
  assert (delayed_process (debounce_key t) s =
    Ok () (cleaned (debounce_key t)
             (logged [(INFO, "[DEBOUNCE] Timer expired, merging messages");
                      (ERROR, "[DEBOUNCE] Error in delayed processing")] s))) as Hd.
  { unfold delayed_process, try_except, merge_and_forward, mbind, M_bind, gets.
    rewrite Hacc. unfold list_getitem.
    change ((e0 :: rest) !! 0%nat) with (Some e0).
    cbn -[merge_texts cleanup on_error lookup].
    rewrite merge_texts_raises by done.
    unfold on_error, mbind, M_bind, gets, logging, modify.
    cbn -[lookup delete]. rewrite Hacc.
    rewrite decide_True by eauto. cbn -[lookup delete].
    unfold cleaned, logged. cbn -[lookup delete]. rewrite <- app_assoc.
    destruct (decide (is_Some (_debounce_timers s !! debounce_key t))) as [Hk|Hk]; [done|].
    apply eq_None_not_Some in Hk. cbn -[lookup delete]. by rewrite (delete_id _ _ Hk). }
  subst s'. unfold fire. rewrite Ht, Hst, Hd. unfold settle, set_status.
  cbn -[lookup delete]. rewrite Ht. cbn -[lookup delete].
  rewrite list_lookup_insert_eq by (by eapply lookup_lt_Some).
  done.
Qed.

Lemma burst_with_null_text_is_dropped_witness :
  let m1 := slack_message "C1" "U1" "hello" in
  let m2 : dict := <["text" := None]> (slack_message "C1" "U1" "x") in
  let s := run [DebouncedEnqueue m1 2000; DebouncedEnqueue m2 2000] initial in
  let s' := fire 1 s in
  heap s' = heap s ∧
  message_queues s' = message_queues s ∧
  (status <$> tasks s' !! 1%nat) = Some Finished ∧
  log s' = log s ++ [(INFO, "[DEBOUNCE] Timer expired, merging messages");
                     (ERROR, "[DEBOUNCE] Error in delayed processing")] ∧
  _accumulated_messages s' = delete "C1:U1" (_accumulated_messages s) ∧
  _debounce_timers s' = delete "C1:U1" (_debounce_timers s).
Proof.
  intros m1 m2 s.
  apply (burst_with_null_text_is_dropped s 1
           (Task "C1:U1" (Some "U1") (Some "C1") 2000 Sleeping)
           (Entry m1 0) [Entry m2 0]).
  - reflexivity.
  - reflexivity.
  - reflexivity.
  - apply Exists_cons_tl, Exists_cons_hd. reflexivity.
Defined.

Lemma key_of_inj_witness :
  has_colon "C1" = false ∧
  key_of (slack_message "C1" "U1" "x") ≠ key_of (slack_message "C1" "U2" "y").
Proof.
  split; [reflexivity|].
  apply (key_of_inj _ _ "C1" "U1" "C1" "U2"); try reflexivity.
  intros [=].
Defined.

(** *** Backpressure *)

(** A producer that calls [enqueue_message] for a channel whose queue holds
    100 jobs is parked in [put]: nothing changes and nothing is logged, and
    trying the put again changes nothing either.  Once a worker has taken a
    job, the put goes through and the message is the last job of the
    queue. *)
Theorem full_queue_parks_the_producer (s : state) (m : dict) (q : nat) (Q : queue) :
  reachable s →
  message_queues s !! dict_get m "channel" = Some q →
  heap s !! q = Some Q →
  length (items Q) = 100%nat →
  enqueue_message m s = Blocked q (Job m) s ∧
  exec (ProducerPut q (Job m)) s = s ∧
  ∀ j s1, queue_get q s = Some (j, s1) →
    ∃ rest, items Q = j :: rest ∧
      heap (exec (ProducerPut q (Job m)) s1) =
        <[q := Queue 100 (rest ++ [Job m])]> (heap s).
Proof.
  intros [ops ->] Hk HQ Hlen.
  assert (Hb : bounded (run ops initial)) by (apply stays_bounded_run; constructor).
  destruct (proj1 (Forall_lookup _ _) Hb _ _ HQ) as [Hm _].
  assert (Hfull : full Q = true).
  { unfold full. rewrite Hm, Hlen. done. }
  set (s := run ops initial) in *.
  split; [|split].
  - unfold enqueue_message, mbind, M_bind. rewrite get_or_create_eq, Hk.
    unfold queue_put. by rewrite HQ, Hfull.
  - simpl. unfold mbind, M_bind, queue_put. by rewrite HQ, Hfull.
  - intros j s1. unfold queue_get. rewrite HQ.
    destruct (items Q) as [|j' rest] eqn:Hi; [done|]. intros [= <- <-].
    exists rest. split; [done|]. simpl. unfold mbind, M_bind, queue_put.
    cbn -[lookup insert]. rewrite list_lookup_insert_eq by (by eapply lookup_lt_Some).
    assert (full (Queue (maxsize Q) rest) = false) as ->.
    { unfold full. simpl. rewrite Hm. simpl in Hlen. apply Nat.leb_gt. lia. }
    cbn -[lookup insert]. by rewrite list_insert_insert_eq, Hm.
Qed.

Lemma full_queue_parks_the_producer_witness :
  let m := slack_message "C1" "U1" "a" in
  let s := run (replicate 100 (Enqueue m)) initial in
  enqueue_message m s = Blocked 0 (Job m) s ∧
  exec (ProducerPut 0 (Job m)) s = s ∧
  ∀ j s1, queue_get 0 s = Some (j, s1) →
    ∃ rest, items (Queue 100 (replicate 100 (Job m))) = j :: rest ∧
      heap (exec (ProducerPut 0 (Job m)) s1) =
        <[0%nat := Queue 100 (rest ++ [Job m])]> (heap s).
Proof.
  intros m s.
  apply (full_queue_parks_the_producer s m 0 (Queue 100 (replicate 100 (Job m)))).
  - by exists (replicate 100 (Enqueue m)).
  - by vm_compute.
  - by vm_compute.
  - by vm_compute.
Defined.

(** *** One pending timer per bucket *)

(** A triple for a coroutine: from a state where [P] holds it returns in a
    state where [Q] holds, raises in one where [Er] holds, or is parked in
    one where [Eb] holds. *)
Definition triple {A} (P : state → Prop) (m : M A)
    (Q : A → state → Prop) (Er Eb : state → Prop) : Prop :=
  ∀ s, P s →
    match m s with
    | Ok a s' => Q a s'
    | Raise _ s' => Er s'
    | Blocked _ _ s' => Eb s'
    end.

Lemma triple_bind {A B} P (m : M A) (f : A → M B) Q R Er Eb :
  triple P m Q Er Eb → (∀ a, triple (Q a) (f a) R Er Eb) →
  triple P (m ≫= f) R Er Eb.
Proof.
  intros Hm Hf s Hs. specialize (Hm s Hs). unfold mbind, M_bind.
  destruct (m s) as [a s'|e s'|q j s']; [by apply Hf|done..].
Qed.

Lemma triple_try {A} P (m : M A) (h : exn → M A) Q Er Er' Eb :
  triple P m Q Er Eb → (∀ e, triple Er (h e) Q Er' Eb) →
  triple P (try_except m h) Q Er' Eb.
Proof.
  intros Hm Hh s Hs. specialize (Hm s Hs). unfold try_except.
  destruct (m s) as [a s'|e s'|q j s']; [done|by apply Hh|done].
Qed.

Lemma triple_weaken {A} (P P' : state → Prop) (m : M A) (Q Q' : A → state → Prop)
    (Er Er' Eb Eb' : state → Prop) :
  triple P m Q Er Eb →
  (∀ s, P' s → P s) → (∀ a s, Q a s → Q' a s) →
  (∀ s, Er s → Er' s) → (∀ s, Eb s → Eb' s) →
  triple P' m Q' Er' Eb'.
Proof.
  intros Hm HP HQ Hr Hb s Hs. specialize (Hm s (HP s Hs)).
  destruct (m s); eauto.
Qed.

(** A coroutine that leaves the timers and the tasks alone. *)
Definition same_timers (s0 s : state) : Prop :=
  tasks s = tasks s0 ∧ _debounce_timers s = _debounce_timers s0.

Lemma triple_frame {A} (P : state → Prop) (m : M A) :
  (∀ s, same_timers s (state_of (m s))) →
  (∀ s0 s, same_timers s0 s → P s0 → P s) →
  triple P m (λ _, P) P P.
Proof.
  intros Hm HP s Hs. specialize (Hm s).
  destruct (m s); simpl in Hm; eauto.
Qed.

Lemma same_timers_enqueue_message m s : same_timers s (state_of (enqueue_message m s)).
Proof. by destruct (same_buckets_enqueue_message m s) as (_ & ? & ?). Qed.

Lemma same_timers_merge_texts l parts s :
  same_timers s (state_of (merge_texts l parts s)).
Proof.
  revert parts. induction l as [|e l IH]; intros parts; simpl; [done|].
  unfold mbind, M_bind. destruct (dict_get_default _ _ _); simpl; [apply IH|done].
Qed.

(** The timers after [delayed_process] of bucket [key]: as before, or with
    the entry of [key] removed. *)
Definition timer_removed (key : string) (s0 s : state) : Prop :=
  tasks s = tasks s0 ∧
  (_debounce_timers s = _debounce_timers s0 ∨
   _debounce_timers s = delete key (_debounce_timers s0)).

Lemma triple_cleanup key s0 :
  triple (same_timers s0) (cleanup key)
    (λ _, timer_removed key s0) (same_timers s0) (same_timers s0).
Proof.
  intros s [Ht Htm]. unfold cleanup, timer_removed, mbind, M_bind, gets, modify, raise.
  repeat case_decide; cbn -[lookup delete]; rewrite ?Ht, ?Htm; auto.
  by split.
Qed.

Lemma triple_on_error key e s0 :
  triple (same_timers s0) (on_error key e)
    (λ _, timer_removed key s0) (timer_removed key s0) (same_timers s0).
Proof.
  intros s [Ht Htm].
  unfold on_error, timer_removed, mbind, M_bind, gets, modify, logging.
  cbn -[lookup delete decide].
  destruct (decide (is_Some (_accumulated_messages s !! key)));
    cbn -[lookup delete decide];
    destruct (decide (is_Some (_debounce_timers s !! key)));
    cbn -[lookup delete]; rewrite ?Ht, ?Htm; auto.
Qed.

Lemma triple_same_timers {A} (m : M A) s0 :
  (∀ s, same_timers s (state_of (m s))) →
  triple (same_timers s0) m (λ _, same_timers s0) (same_timers s0) (same_timers s0).
Proof.
  intros Hm. apply triple_frame; [done|].
  intros s1 s2 [H1 H2] [H3 H4]. split; congruence.
Qed.

Lemma triple_merge_and_forward key s0 :
  triple (same_timers s0) (merge_and_forward key)
    (λ _, timer_removed key s0) (same_timers s0) (same_timers s0).
Proof.
  unfold merge_and_forward.
  eapply triple_bind; [by apply triple_same_timers|]. intros acc. simpl.
  destruct (acc !! key) as [accumulated|];
    [|intros s Hs; destruct Hs as [? ?]; by split; [|left]].
  eapply triple_bind; [by apply triple_same_timers|]. intros ?. simpl.
  eapply triple_bind.
  { apply triple_same_timers. intros s. unfold list_getitem. by case_match. }
  intros first. simpl.
  eapply triple_bind; [apply triple_same_timers, same_timers_merge_texts|].
  intros parts. simpl.
  eapply triple_bind; [|intros ?; apply triple_cleanup].
  destruct parts as [|p ps]; [by apply triple_same_timers|].
  eapply triple_bind; [by apply triple_same_timers|]. intros ?.
  apply triple_same_timers, same_timers_enqueue_message.
Qed.

Lemma triple_delayed_process key s0 :
  triple (same_timers s0) (delayed_process key)
    (λ _, timer_removed key s0) (timer_removed key s0) (same_timers s0).
Proof.
  eapply triple_try; [apply triple_merge_and_forward|intros e; apply triple_on_error].
Qed.

Lemma triple_delayed_process_resumed key q j s0 :
  triple (same_timers s0) (delayed_process_resumed key q j)
    (λ _, timer_removed key s0) (timer_removed key s0) (same_timers s0).
Proof.
  eapply triple_try; [|intros e; apply triple_on_error].
  eapply triple_bind.
  { apply triple_same_timers. intros s. unfold queue_put.
    destruct (heap s !! q) as [Q|]; [|done]. by destruct (full Q). }
  intros ?. simpl.
  eapply triple_bind; [by apply triple_same_timers|]. intros ?. apply triple_cleanup.
Qed.

(** A task whose [delayed_process] is not over: it sleeps or is parked in
    [put]. *)
Definition pending (t : task) : bool :=
  match status t with
  | Sleeping | Putting _ _ => true
  | Cancelled | Finished => false
  end.

(** Every registered timer is a task of its key, and every pending task is
    the registered timer of its key. *)
Record timers_wf (s : state) : Prop := TimersWf {
  wf_registered k i :
    _debounce_timers s !! k = Some i →
    ∃ t, tasks s !! i = Some t ∧ debounce_key t = k;
  wf_pending i t :
    tasks s !! i = Some t → pending t = true →
    _debounce_timers s !! debounce_key t = Some i
}.

(** No task is pending for [key]: the point where the caller has cancelled
    the previous timer and not yet created the next one. *)
Definition no_pending (key : string) (s : state) : Prop :=
  timers_wf s ∧
  ∀ i t, tasks s !! i = Some t → pending t = true → debounce_key t ≠ key.

Lemma timers_wf_same s s' : same_timers s s' → timers_wf s → timers_wf s'.
Proof. intros [Ht Htm] [Hr Hp]. split; rewrite Ht, Htm; eauto. Qed.

Lemma triple_timers_wf {A} (m : M A) :
  (∀ s, same_timers s (state_of (m s))) →
  triple timers_wf m (λ _, timers_wf) timers_wf timers_wf.
Proof. intros Hm. apply triple_frame; [done|apply timers_wf_same]. Qed.

Lemma triple_gets {A} (P : state → Prop) (f : state → A) Er Eb :
  triple P (gets f) (λ a s, P s ∧ a = f s) Er Eb.
Proof. by intros s Hs. Qed.

Lemma timers_wf_set_status i st s t :
  tasks s !! i = Some t →
  tasks (set_status i st s) =
    <[i := Task (debounce_key t) (user_id t) (channel_id t) (deadline t) st]> (tasks s) ∧
  _debounce_timers (set_status i st s) = _debounce_timers s.
Proof. intros Ht. unfold set_status. by rewrite Ht. Qed.

Lemma timers_wf_settle i t s (r : result unit) :
  timers_wf s → tasks s !! i = Some t → pending t = true →
  match r with
  | Ok _ s' | Raise _ s' => timer_removed (debounce_key t) s s'
  | Blocked _ _ s' => same_timers s s'
  end →
  timers_wf (settle i r).
Proof.
  intros [Hr Hp] Ht Hpt Hres.
  pose proof (lookup_lt_Some _ _ _ Ht) as Hlt.
  assert (∀ st s', tasks s' = tasks s →
    (_debounce_timers s' = _debounce_timers s ∨
     (st = Finished ∧ _debounce_timers s' = delete (debounce_key t) (_debounce_timers s))) →
    (st = Finished ∨ ∃ q j, st = Putting q j) →
    timers_wf (set_status i st s')) as Hgen.
  { intros st s' Hts Htm Hst.
    destruct (timers_wf_set_status i st s' t) as [E1 E2]; [by rewrite Hts|].
    split; rewrite E1, E2, Hts.
    - intros k i' Hk.
      assert (_debounce_timers s !! k = Some i') as Hk'.
      { destruct Htm as [Htm|[_ Htm]]; rewrite Htm in Hk; [done|].
        by apply lookup_delete_Some in Hk as [_ ?]. }
      destruct (Hr _ _ Hk') as (t' & Ht' & Hkey).
      destruct (decide (i' = i)) as [->|Hne].
      + rewrite list_lookup_insert_eq by done. eexists. split; [done|]. simpl.
        by simplify_eq.
      + rewrite list_lookup_insert_ne by done. eauto.
    - intros i' t' Ht' Hpt'.
      destruct (decide (i' = i)) as [->|Hne].
      + rewrite list_lookup_insert_eq in Ht' by done. simplify_eq. simpl.
        destruct Htm as [->|[-> _]]; [by apply Hp|].
        by destruct Hst as [?|(? & ? & ?)].
      + rewrite list_lookup_insert_ne in Ht' by done.
        pose proof (Hp _ _ Ht' Hpt') as Hreg.
        destruct Htm as [->|[_ ->]]; [done|].
        rewrite lookup_delete_ne; [done|]. intros Heq. rewrite <- Heq in Hreg.
        rewrite (Hp _ _ Ht Hpt) in Hreg. congruence. }
  destruct r as [[] s'|e s'|q j s']; simpl.
  - destruct Hres as [? [?|?]]; apply Hgen; eauto.
  - destruct Hres as [? [?|?]]; apply Hgen; eauto.
  - destruct Hres as [? ?]. apply Hgen; eauto.
Qed.

Lemma same_timers_refl s : same_timers s s.
Proof. done. Qed.

Lemma timers_wf_fire i s : timers_wf s → timers_wf (fire i s).
Proof.
  intros Hwf. unfold fire. destruct (tasks s !! i) as [t|] eqn:Ht; [|done].
  destruct (status t) eqn:Hst; try done.
  eapply timers_wf_settle; [done..|by unfold pending; rewrite Hst|].
  pose proof (triple_delayed_process (debounce_key t) s s (same_timers_refl s)) as H.
  by destruct (delayed_process _ s).
Qed.

Lemma timers_wf_resume i s : timers_wf s → timers_wf (resume i s).
Proof.
  intros Hwf. unfold resume. destruct (tasks s !! i) as [t|] eqn:Ht; [|done].
  destruct (status t) eqn:Hst; try done.
  eapply timers_wf_settle; [done..|by unfold pending; rewrite Hst|].
  pose proof (triple_delayed_process_resumed (debounce_key t) q j s s (same_timers_refl s)) as H.
  by destruct (delayed_process_resumed _ _ _ s).
Qed.

Lemma triple_cancel_old key timers :
  triple (λ s, timers_wf s ∧ timers = _debounce_timers s)
    (match timers !! key with
     | Some old => task_cancel old;; logging INFO "[DEBOUNCE] Cancelled previous timer"
     | None => mret ()
     end)
    (λ _, no_pending key) timers_wf timers_wf.
Proof.
  intros s [[Hr Hp] ->].
  destruct (_debounce_timers s !! key) as [old|] eqn:Hk; simpl.
  - destruct (Hr _ _ Hk) as (t & Ht & Hkey).
    pose proof (lookup_lt_Some _ _ _ Ht) as Hlt.
    unfold task_cancel, mbind, M_bind, gets, modify, logging. rewrite Ht.
    destruct (pending t) eqn:Hpt.
    + assert (∀ s', tasks s' = <[old := cancelled_task t]> (tasks s) →
        _debounce_timers s' = _debounce_timers s → no_pending key s') as Hgen.
      { intros s' Hts Htm. split; [split|]; rewrite ?Hts, ?Htm.
        - intros k i Hki. destruct (Hr _ _ Hki) as (t' & Ht' & Hk').
          destruct (decide (i = old)) as [->|Hne].
          + rewrite list_lookup_insert_eq by done. eexists. split; [done|].
            simpl. by simplify_eq.
          + rewrite list_lookup_insert_ne by done. eauto.
        - intros i t' Ht' Hpt'. destruct (decide (i = old)) as [->|Hne].
          + rewrite list_lookup_insert_eq in Ht' by done. by simplify_eq.
          + rewrite list_lookup_insert_ne in Ht' by done. eauto.
        - intros i t' Ht' Hpt' Heq. destruct (decide (i = old)) as [->|Hne].
          + rewrite list_lookup_insert_eq in Ht' by done. by simplify_eq.
          + rewrite list_lookup_insert_ne in Ht' by done.
            pose proof (Hp _ _ Ht' Hpt') as Hreg. rewrite Heq, Hk in Hreg. congruence. }
      unfold pending in Hpt. destruct (status t); try done; by apply Hgen.
    + assert (no_pending key s) as Hnp.
      { split; [by split|]. intros i t' Ht' Hpt' Heq.
        pose proof (Hp _ _ Ht' Hpt') as Hreg. rewrite Heq, Hk in Hreg.
        simplify_eq. congruence. }
      unfold pending in Hpt. destruct (status t); try done; simpl.
      all: destruct Hnp as [Hwf Hnp]; split; [by eapply timers_wf_same|done].
  - split; [by split|]. intros i t Ht Hpt Heq.
    pose proof (Hp _ _ Ht Hpt) as Hreg. rewrite Heq, Hk in Hreg. done.
Qed.

Lemma triple_register_new key u c d :
  triple (no_pending key)
    (new ← create_task key u c d;
     modify (λ s, set_timers (<[key := new]> (_debounce_timers s)) s))
    (λ _, timers_wf) timers_wf timers_wf.
Proof.
  intros s [[Hr Hp] Hnp]. unfold mbind, M_bind, create_task, modify.
  cbn -[lookup insert]. split; cbn -[lookup insert].
  - intros k i Hk. destruct (decide (k = key)) as [->|Hne].
    + rewrite lookup_insert_eq in Hk. simplify_eq.
      eexists. by rewrite lookup_app_r, Nat.sub_diag.
    + rewrite lookup_insert_ne in Hk by done.
      destruct (Hr _ _ Hk) as (t & Ht & Hkey). exists t. split; [|done].
      by apply lookup_app_l_Some.
  - intros i t Ht Hpt. apply lookup_app_Some in Ht as [Ht|[Hge Ht]].
    + rewrite lookup_insert_ne by (intros Heq; by eapply Hnp). eauto.
    + apply list_lookup_singleton_Some in Ht as [Hi <-]. simpl.
      rewrite lookup_insert_eq. f_equal. lia.
Qed.

Lemma triple_debounced m d :
  triple timers_wf (debounced_enqueue_message m d) (λ _, timers_wf) timers_wf timers_wf.
Proof.
  unfold debounced_enqueue_message. case_decide.
  - apply triple_timers_wf. intros s. unfold mbind, M_bind, logging, modify.
    cbn -[enqueue_message].
    match goal with |- same_timers _ (state_of (enqueue_message m ?s1)) =>
      destruct (same_timers_enqueue_message m s1) as [H1 H2] end.
    by split; [rewrite H1|rewrite H2].
  - eapply triple_bind; [by apply triple_timers_wf|]. intros acc. simpl.
    eapply triple_bind.
    { apply triple_timers_wf. intros s. by case_decide. }
    intros ?. simpl.
    eapply triple_bind; [by apply triple_timers_wf|]. intros now. simpl.
    eapply triple_bind.
    { apply triple_timers_wf. intros s. unfold accumulated_append, mbind, M_bind, gets.
      by destruct (_accumulated_messages s !! _). }
    intros ?. simpl.
    eapply triple_bind; [apply triple_gets|]. intros timers. simpl.
    eapply triple_bind; [apply triple_cancel_old|]. intros ?.
    apply triple_register_new.
Qed.

Lemma timers_wf_run_timers fuel t s : timers_wf s → timers_wf (run_timers fuel t s).
Proof.
  revert s. induction fuel as [|fuel IH]; intros s Hwf; simpl; [done|].
  destruct (earliest t (tasks s) 0 None) as [[i d]|]; [|done].
  by apply IH, timers_wf_fire.
Qed.

Lemma timers_wf_exec o s : timers_wf s → timers_wf (exec o s).
Proof.
  intros Hwf. destruct o as [m|m d|t|i|q j|q]; simpl.
  - eapply timers_wf_same; [apply same_timers_enqueue_message|done].
  - pose proof (triple_debounced m d s Hwf) as H.
    by destruct (debounced_enqueue_message m d s).
  - apply timers_wf_run_timers. eapply timers_wf_same; [|exact Hwf]. done.
  - by apply timers_wf_resume.
  - eapply timers_wf_same; [|done]. unfold mbind, M_bind, queue_put.
    destruct (heap s !! q) as [Q|]; [|done]. by destruct (full Q).
  - unfold queue_get. destruct (heap s !! q) as [Q|]; [|done].
    destruct (items Q); [done|]. eapply timers_wf_same; [|exact Hwf]. done.
Qed.

Lemma timers_wf_run ops s : timers_wf s → timers_wf (run ops s).
Proof.
  revert s. induction ops as [|o ops IH]; intros s Hwf; [done|].
  change (timers_wf (run ops (exec o s))). by apply IH, timers_wf_exec.
Qed.

(** At most one [delayed_process] task is pending for a bucket, and it is
    the one registered in [_debounce_timers]: whenever a new timer is
    started the previous one has been cancelled, in every run of the
    dispatcher. *)
Theorem one_pending_timer_per_bucket (s : state) (i i' : nat) (t t' : task) :
  reachable s →
  tasks s !! i = Some t → pending t = true →
  tasks s !! i' = Some t' → pending t' = true →
  debounce_key t = debounce_key t' →
  i = i' ∧ _debounce_timers s !! debounce_key t = Some i.
Proof.
  intros [ops ->] Ht Hpt Ht' Hpt' Hkey.
  assert (timers_wf (run ops initial)) as [_ Hp].
  { apply timers_wf_run. split; simpl; intros ??; by rewrite ?lookup_empty. }
  pose proof (Hp _ _ Ht Hpt) as H1. pose proof (Hp _ _ Ht' Hpt') as H2.
  rewrite <- Hkey in H2. split; [congruence|done].
Qed.

Lemma one_pending_timer_per_bucket_witness :
  let s := run [DebouncedEnqueue (slack_message "C1" "U1" "a") 2000;
                Advance 300;
                DebouncedEnqueue (slack_message "C1" "U1" "b") 2000] initial in
  (status <$> tasks s) = [Cancelled; Sleeping] ∧
  (1%nat = 1%nat ∧ _debounce_timers s !! "C1:U1" = Some 1%nat).
Proof.
  intros s. split; [reflexivity|].
  apply (one_pending_timer_per_bucket s 1 1
           (Task "C1:U1" (Some "U1") (Some "C1") 2300 Sleeping)
           (Task "C1:U1" (Some "U1") (Some "C1") 2300 Sleeping)).
  - by eexists.
  - reflexivity.
  - reflexivity.
  - reflexivity.
  - reflexivity.
  - reflexivity.
Defined.

End Dispatcher.

(** ** The orchestrator pool and its status broadcast *)

Module Orchestrator.
Import Py.
Export Dispatcher(level, DEBUG, INFO, WARNING, ERROR).

(** What [users_profile_set] is called with: the busy status, or the
    cleared one. *)
Inductive presence := Busy | Idle.

(** How an awaited [orchestrator_func] ends: it returns, raises an
    [Exception], or raises a [BaseException] that is no [Exception]. *)
Inductive outcome :=
| Returned
| RaisedException (e : string)
| RaisedBase (e : string).

(** How the awaited sink call ends: it returns or raises an [Exception]
    [e], given by [str(e)]. *)
Inductive sink_outcome :=
| SinkOk
| SinkFailed (e : string).

(** Where an [orchestrator_worker] is suspended.
    - [Waiting]: in [orchestrator_queue.get()] (line 221);
    - [Starting j]: the job is counted in (line 226) and the first
      [update_bot_status] waits for the lock (line 190);
    - [Announcing j b]: that update holds the lock and awaits the sink,
      called with status [b];
    - [Running j]: in [orchestrator_func(job, client)] (line 230);
    - [Finishing b]: the job is counted out (line 236) and the second
      [update_bot_status] waits for the lock; [b] tells that a
      [BaseException] is on its way out;
    - [Clearing b st]: that update holds the lock and awaits the sink,
      called with status [st];
    - [Dead]: the task ended with the [BaseException]. *)
Inductive pc :=
| Waiting
| Starting (j : dict)
| Announcing (j : dict) (is_busy : presence)
| Running (j : dict)
| Finishing (dying : bool)
| Clearing (dying : bool) (is_busy : presence)
| Dead.

Record state := State {
  orchestrator_queue : list dict;
  _active_orchestrator_workers : Z;
  _status_update_lock : option nat;
  workers : list pc;
  sink : list presence;
  log : list (level * string)
}.

(** The pool after [start_orchestrator_worker(app, f, num_workers)], once
    each of its tasks has run up to its first [get]. *)
Definition initial (num_workers : nat) : state :=
  State [] 0%Z None (replicate num_workers Waiting) []
    (replicate num_workers (INFO, "[ORCHESTRATOR_WORKER] Created worker") ++
     mjoin (replicate num_workers
       [(INFO, "[ORCHESTRATOR_WORKER] Started");
        (INFO, "[ORCHESTRATOR_WORKER] Waiting for next job from queue...")])).

(** A worker between the increment and the decrement of the counter. *)
Definition in_flight (p : pc) : bool :=
  match p with
  | Starting _ | Announcing _ _ | Running _ => true
  | _ => false
  end.

(** A worker inside the call of [orchestrator_func]. *)
Definition invoking (p : pc) : bool :=
  match p with
  | Running _ => true
  | _ => false
  end.

Definition count (f : pc → bool) (s : state) : nat :=
  length (filter (λ p, f p = true) (workers s)).

(** Line 192: [is_busy = active_workers >= num_workers]. *)
Definition status_of (num_workers : nat) (active_workers : Z) : presence :=
  if Z.leb (Z.of_nat num_workers) active_workers then Busy else Idle.

Definition logging (l : level) (msg : string) (s : state) : state :=
  State (orchestrator_queue s) (_active_orchestrator_workers s)
        (_status_update_lock s) (workers s) (sink s) (log s ++ [(l, msg)]).

(** The transitions of the pool: each is the code a task runs between two
    suspensions. *)
Inductive action :=
| Enqueue (j : dict)
| Get (w : nat)
| Acquire (w : nat)
| SinkDone (w : nat) (o : sink_outcome)
| FuncDone (w : nat) (o : outcome).

(** Lines 213-217: the handler around the sink call. *)
Definition log_sink (o : sink_outcome) (is_busy : presence) (s : state) : state :=
  match o with
  | SinkOk =>
      match is_busy with
      | Busy => logging INFO "[STATUS] Bot status updated to BUSY" s
      | Idle => logging INFO "[STATUS] Bot status cleared" s
      end
  | SinkFailed e =>
      if contains "not_allowed_token_type" e then
        logging DEBUG "[STATUS] Bot status update not supported with current token type" s
      else logging WARNING "[STATUS] Failed to update bot status" s
  end.

Definition exec (num_workers : nat) (a : action) (s : state) : option state :=
  match a with
  | Enqueue j =>
      (* enqueue_orchestrator_job: the put goes through when there is room *)
      if Nat.ltb (length (orchestrator_queue s)) 100 then
        Some (logging INFO "[ORCHESTRATOR_QUEUE] Job enqueued"
                (State (orchestrator_queue s ++ [j]) (_active_orchestrator_workers s)
                       (_status_update_lock s) (workers s) (sink s) (log s)))
      else None
  | Get w =>
      (* lines 221-228: the job arrives, the counter goes up, the update
         starts and waits for the lock *)
      match workers s !! w, orchestrator_queue s with
      | Some Waiting, j :: rest =>
          Some (logging INFO "[ORCHESTRATOR_WORKER] Started job"
                  (logging INFO "[ORCHESTRATOR_WORKER] Job received from queue"
                     (State rest (_active_orchestrator_workers s + 1)
                            (_status_update_lock s)
                            (<[w := Starting j]> (workers s)) (sink s) (log s))))
      | _, _ => None
      end
  | Acquire w =>
      (* lines 190-205: the lock is free; the worker takes it, reads the
         counter and calls the sink *)
      match _status_update_lock s, workers s !! w with
      | None, Some (Starting j) =>
          Some (logging INFO "[STATUS] Updating bot status"
                  (State (orchestrator_queue s) (_active_orchestrator_workers s)
                         (Some w)
                         (<[w := Announcing j
                                  (status_of num_workers (_active_orchestrator_workers s))]>
                            (workers s))
                         (sink s ++ [status_of num_workers (_active_orchestrator_workers s)])
                         (log s)))
      | None, Some (Finishing b) =>
          Some (logging INFO "[STATUS] Updating bot status"
                  (State (orchestrator_queue s) (_active_orchestrator_workers s)
                         (Some w)
                         (<[w := Clearing b
                                  (status_of num_workers (_active_orchestrator_workers s))]>
                            (workers s))
                         (sink s ++ [status_of num_workers (_active_orchestrator_workers s)])
                         (log s)))
      | _, _ => None
      end
  | SinkDone w o =>
      (* lines 203-217: the sink call is over, the lock is released; after
         the first update the worker calls [orchestrator_func], after the
         second it loops or ends *)
      match workers s !! w with
      | Some (Announcing j is_busy) =>
          Some (log_sink o is_busy
                  (State (orchestrator_queue s) (_active_orchestrator_workers s)
                         None (<[w := Running j]> (workers s)) (sink s) (log s)))
      | Some (Clearing b is_busy) =>
          let s1 :=
            log_sink o is_busy
              (State (orchestrator_queue s) (_active_orchestrator_workers s)
                     None (<[w := if b then Dead else Waiting]> (workers s))
                     (sink s) (log s)) in
          Some (if b then s1
                else logging INFO "[ORCHESTRATOR_WORKER] Waiting for next job from queue..." s1)
      | _ => None
      end
  | FuncDone w o =>
      (* lines 231-239: the call is over; [except Exception] logs an
         [Exception]; [finally] counts the job out and starts the second
         update *)
      match workers s !! w with
      | Some (Running j) =>
          let s1 :=
            match o with
            | Returned => logging INFO "[ORCHESTRATOR_WORKER] Job completed successfully" s
            | RaisedException e => logging ERROR "[ORCHESTRATOR_WORKER] Error" s
            | RaisedBase e => s
            end in
          let dying := match o with RaisedBase _ => true | _ => false end in
          Some (logging INFO "[ORCHESTRATOR_WORKER] Finished job"
                  (State (orchestrator_queue s1) (_active_orchestrator_workers s1 - 1)
                         (_status_update_lock s1)
                         (<[w := Finishing dying]> (workers s1)) (sink s1) (log s1)))
      | _ => None
      end
  end.

Definition step (num_workers : nat) (s s' : state) : Prop :=
  ∃ a, exec num_workers a s = Some s'.

(** The states of every interleaving of the workers and the producers. *)
Inductive reachable (num_workers : nat) : state → Prop :=
| reachable_initial : reachable num_workers (initial num_workers)
| reachable_step s s' :
    reachable num_workers s → step num_workers s s' → reachable num_workers s'.

(** Runs a schedule; a transition that is not enabled is skipped. *)
Definition run (num_workers : nat) (sched : list action) (s : state) : state :=
  foldl (λ s a, match exec num_workers a s with Some s' => s' | None => s end) s sched.

(** *** Invariants of the pool *)

Definition holding (p : pc) : bool :=
  match p with
  | Announcing _ _ | Clearing _ _ => true
  | _ => false
  end.

Definition count_list (f : pc → bool) (l : list pc) : nat :=
  length (filter (λ p, f p = true) l).

Lemma count_list_le f l : (count_list f l ≤ length l)%nat.
Proof. apply length_filter. Qed.

Lemma count_list_insert f l w p p' :
  l !! w = Some p →
  (count_list f (<[w := p']> l) + Nat.b2n (f p) = count_list f l + Nat.b2n (f p'))%nat.
Proof.
  unfold count_list. revert w. induction l as [|x l IH]; intros [|w] Hw; simplify_eq/=.
  - rewrite !filter_cons. destruct (f p), (f p'); repeat case_decide; simpl; try done; lia.
  - rewrite !filter_cons. specialize (IH _ Hw).
    case_decide; simpl; lia.
Qed.

Lemma count_list_replicate f n p : f p = false → count_list f (replicate n p) = 0%nat.
Proof.
  intros Hp. unfold count_list. induction n as [|n IH]; [done|].
  simpl. rewrite filter_cons. case_decide; [congruence|done].
Qed.

Lemma log_sink_fields o ok s :
  orchestrator_queue (log_sink o ok s) = orchestrator_queue s ∧
  _active_orchestrator_workers (log_sink o ok s) = _active_orchestrator_workers s ∧
  _status_update_lock (log_sink o ok s) = _status_update_lock s ∧
  workers (log_sink o ok s) = workers s ∧
  sink (log_sink o ok s) = sink s.
Proof. destruct o; simpl; [by destruct ok|by case_match]. Qed.

(** What holds of the pool in every interleaving: there are [num_workers]
    workers, the counter is the number of workers between their increment
    and their decrement, and the lock is held exactly by the worker that
    awaits the sink. *)
Record inv (num_workers : nat) (s : state) : Prop := Inv {
  inv_length : length (workers s) = num_workers;
  inv_active : _active_orchestrator_workers s = Z.of_nat (count in_flight s);
  inv_lock_holder w :
    _status_update_lock s = Some w →
    ∃ p, workers s !! w = Some p ∧ holding p = true;
  inv_holder_lock w p :
    workers s !! w = Some p → holding p = true → _status_update_lock s = Some w
}.

Lemma pool_inv_initial n : inv n (initial n).
Proof.
  split; simpl.
  - by rewrite length_replicate.
  - unfold count. simpl. change (length _) with (count_list in_flight (replicate n Waiting)).
    by rewrite count_list_replicate.
  - done.
  - intros w p [-> _]%lookup_replicate. done.
Qed.

Lemma pool_inv_logging n l msg s : inv n s → inv n (logging l msg s).
Proof. by intros []. Qed.

Ltac exec_inv H :=
  unfold exec in H; repeat case_match; simplify_eq.

Lemma count_insert f s w p p' :
  workers s !! w = Some p →
  (count_list f (<[w := p']> (workers s)) + Nat.b2n (f p) = count f s + Nat.b2n (f p'))%nat.
Proof. apply count_list_insert. Qed.

Lemma pool_inv_exec n a s s' : inv n s → exec n a s = Some s' → inv n s'.
Proof.
  intros [Hlen Hact Hlh Hhl] He.
  destruct a as [j|w|w|w o|w o].
  - exec_inv He. split; simpl; try done.
  - exec_inv He; match goal with H : workers s !! w = Some ?p |- context [<[w := ?q]> _] =>
      rename H into Hw; pose proof (count_insert in_flight s w p q Hw) as Hc; simpl in Hc end.
    split; simpl.
    + by rewrite length_insert.
    + unfold count at 1. simpl.
      match goal with |- context [filter _ ?l] => fold (count_list in_flight l) end. lia.
    + intros w' Hl. destruct (Hlh w' Hl) as (p & Hp & Hh).
      destruct (decide (w' = w)) as [->|Hne]; [by simplify_eq|].
      exists p. by rewrite list_lookup_insert_ne.
    + intros w' p Hp Hh. destruct (decide (w' = w)) as [->|Hne].
      * rewrite list_lookup_insert_eq in Hp by (by eapply lookup_lt_Some). by simplify_eq.
      * rewrite list_lookup_insert_ne in Hp by done. eauto.
  - exec_inv He; match goal with H : workers s !! w = Some ?p |- context [<[w := ?q]> _] =>
      rename H into Hw; pose proof (count_insert in_flight s w p q Hw) as Hc; simpl in Hc end.
    all: split; simpl.
    all: try by rewrite length_insert.
    all: try (unfold count at 1; simpl;
              match goal with |- context [filter _ ?l] => fold (count_list in_flight l) end; lia).
    all: try (intros w' [= <-]; eexists; split;
              [apply list_lookup_insert_eq; by eapply lookup_lt_Some|done]).
    all: intros w' p Hp Hh; destruct (decide (w' = w)) as [->|Hne]; [done|];
         rewrite list_lookup_insert_ne in Hp by done;
         by pose proof (Hhl _ _ Hp Hh).
  - exec_inv He; match goal with H : workers s !! w = Some ?p |- context [<[w := ?q]> _] =>
      rename H into Hw; pose proof (count_insert in_flight s w p q Hw) as Hc; simpl in Hc end.
    all: assert (Hlk : _status_update_lock s = Some w) by (eapply Hhl; [exact Hw|done]).
    all: try apply pool_inv_logging.
    all: match goal with |- inv _ (log_sink ?o' ?ok ?s0) =>
           destruct (log_sink_fields o' ok s0) as (_ & E2 & E3 & E4 & _) end.
    all: split; [rewrite E4|unfold count; rewrite E2, E4|rewrite E3|rewrite E3, E4]; simpl.
    all: try by rewrite length_insert.
    all: try done.
    all: try (match goal with |- context [filter _ ?l] => fold (count_list in_flight l) end;
              try (destruct dying; simpl in Hc); lia).
    all: intros w' p Hp Hh; destruct (decide (w' = w)) as [->|Hne];
         [rewrite list_lookup_insert_eq in Hp by (by eapply lookup_lt_Some);
          simplify_eq; try done; by destruct dying|];
         rewrite list_lookup_insert_ne in Hp by done;
         pose proof (Hhl _ _ Hp Hh); congruence.
  - exec_inv He; match goal with H : workers s !! w = Some ?p |- context [<[w := ?q]> _] =>
      rename H into Hw; pose proof (count_insert in_flight s w p q Hw) as Hc; simpl in Hc end.
    all: split; simpl.
    all: try by rewrite length_insert.
    all: try (unfold count at 1; simpl;
              match goal with |- context [filter _ ?l] => fold (count_list in_flight l) end; lia).
    all: try (intros w' Hl; destruct (Hlh w' Hl) as (p & Hp & Hh);
      destruct (decide (w' = w)) as [->|Hne]; [by simplify_eq|];
      exists p; by rewrite list_lookup_insert_ne).
    all: intros w' p Hp Hh; destruct (decide (w' = w)) as [->|Hne];
         [rewrite list_lookup_insert_eq in Hp by (by eapply lookup_lt_Some); by simplify_eq|];
         rewrite list_lookup_insert_ne in Hp by done; eauto.
Qed.

Lemma pool_reachable_inv n s : reachable n s → inv n s.
Proof.
  induction 1 as [|s s' _ IH [a Ha]]; [apply pool_inv_initial|by eapply pool_inv_exec].
Qed.

Lemma pool_reachable_run n sched s : reachable n s → reachable n (run n sched s).
Proof.
  revert s. induction sched as [|a sched IH]; intros s Hs; [done|].
  simpl. apply IH. destruct (exec n a s) as [s'|] eqn:He; [|done].
  eapply reachable_step; [done|by exists a].
Qed.

Lemma count_le f s : (count f s ≤ length (workers s))%nat.
Proof. apply count_list_le. Qed.

Lemma count_lt f s w p :
  workers s !! w = Some p → f p = false → (count f s < length (workers s))%nat.
Proof.
  intros Hw Hp. unfold count. fold (count_list f (workers s)).
  revert w Hw. induction (workers s) as [|x l IH]; intros [|w] Hw; simplify_eq/=.
  - unfold count_list. rewrite filter_cons. case_decide; [congruence|].
    pose proof (count_list_le f l). unfold count_list in *. lia.
  - specialize (IH _ Hw). unfold count_list in *. rewrite filter_cons.
    case_decide; simpl; lia.
Qed.

Lemma status_of_busy n a : status_of n a = Busy ↔ (Z.of_nat n ≤ a)%Z.
Proof.
  unfold status_of. destruct (Z.leb_spec (Z.of_nat n) a); split; (done || lia).
Qed.

Lemma status_of_idle n a : status_of n a = Idle ↔ (a < Z.of_nat n)%Z.
Proof.
  unfold status_of. destruct (Z.leb_spec (Z.of_nat n) a); split; (done || lia).
Qed.

(** C5. In every state the pool reaches, whatever the interleaving of its
    workers and of the producers, the counter
    [_active_orchestrator_workers] is the number of workers between their
    increment (line 226) and their decrement (line 236); hence it lies
    between 0 and [num_workers]. *)
Theorem active_count_within_capacity (num_workers : nat) (s : state) :
  reachable num_workers s →
  _active_orchestrator_workers s = Z.of_nat (count in_flight s) ∧
  (0 ≤ _active_orchestrator_workers s ≤ Z.of_nat num_workers)%Z.
Proof.
  intros [Hlen Hact _ _]%pool_reachable_inv. split; [done|].
  pose proof (count_le in_flight s). lia.
Qed.

Lemma active_count_within_capacity_witness :
  let s := run 2 [Enqueue ∅; Enqueue ∅; Get 0; Get 1] (initial 2) in
  _active_orchestrator_workers s = 2%Z ∧
  _active_orchestrator_workers s = Z.of_nat (count in_flight s) ∧
  (0 ≤ _active_orchestrator_workers s ≤ Z.of_nat 2)%Z.
Proof.
  split; [reflexivity|].
  apply (active_count_within_capacity 2). apply pool_reachable_run. constructor.
Defined.

(** C4. The presence sink is called only by the step that takes the lock
    and reads the counter.  That step pushes the busy status exactly when
    the counter it reads is at least [num_workers], that is exactly when
    all [num_workers] workers have a job counted in and not yet counted
    out, and the cleared status otherwise.  The update a worker makes after
    its job ended always pushes the cleared status. *)
Theorem busy_iff_all_workers_active
    (num_workers : nat) (s s' : state) (a : action) :
  reachable num_workers s →
  exec num_workers a s = Some s' →
  match a with
  | Acquire w =>
      ∃ st, sink s' = sink s ++ [st] ∧
        _active_orchestrator_workers s' = _active_orchestrator_workers s ∧
        (st = Busy ↔ (Z.of_nat num_workers ≤ _active_orchestrator_workers s)%Z) ∧
        (st = Busy ↔ count in_flight s = num_workers) ∧
        (st = Idle ↔ (_active_orchestrator_workers s < Z.of_nat num_workers)%Z) ∧
        (∀ b, workers s !! w = Some (Finishing b) → st = Idle)
  | _ => sink s' = sink s
  end.
Proof.
  intros [Hlen Hact _ _]%pool_reachable_inv He.
  destruct a as [j|w|w|w o|w o]; try by exec_inv He.
  - exists (status_of num_workers (_active_orchestrator_workers s)).
    pose proof (count_le in_flight s).
    split; [by exec_inv He|]. split; [by exec_inv He|].
    split; [apply status_of_busy|]. split; [rewrite status_of_busy; lia|].
    split; [apply status_of_idle|].
    intros b Hw. apply status_of_idle.
    pose proof (count_lt in_flight s w _ Hw eq_refl). lia.
  - exec_inv He; simpl; match goal with |- context [log_sink ?o' ?ok ?s0] =>
      by destruct (log_sink_fields o' ok s0) as (_ & _ & _ & _ & ->) end.
Qed.

Lemma busy_iff_all_workers_active_witness :
  let s := run 2 [Enqueue ∅; Enqueue ∅; Get 0; Get 1] (initial 2) in
  ∃ s', exec 2 (Acquire 1) s = Some s' ∧ sink s' = [Busy] ∧
    ∃ st, sink s' = sink s ++ [st] ∧
      _active_orchestrator_workers s' = _active_orchestrator_workers s ∧
      (st = Busy ↔ (Z.of_nat 2 ≤ _active_orchestrator_workers s)%Z) ∧
      (st = Busy ↔ count in_flight s = 2%nat) ∧
      (st = Idle ↔ (_active_orchestrator_workers s < Z.of_nat 2)%Z) ∧
      (∀ b, workers s !! 1%nat = Some (Finishing b) → st = Idle).
Proof.
  eexists. split; [reflexivity|]. split; [reflexivity|].
  apply (busy_iff_all_workers_active 2 _ _ (Acquire 1)).
  - apply pool_reachable_run. constructor.
  - reflexivity.
Defined.

(** The first broadcast of a job is made before [orchestrator_func] is
    called: with one worker, the sink is told busy while no call runs. *)
Lemma busy_is_announced_before_the_call :
  let s := run 1 [Enqueue ∅; Get 0; Acquire 0] (initial 1) in
  sink s = [Busy] ∧ count in_flight s = 1%nat ∧ count invoking s = 0%nat.
Proof. by vm_compute. Qed.

(** C3, counterexample: with one worker and one job queued, the worker
    that receives the job raises the counter from 0 to 1 while nobody
    holds [_status_update_lock], before and after the step. *)
Lemma active_count_incremented_without_lock :
  let s := run 1 [Enqueue ∅] (initial 1) in
  ∃ s', reachable 1 s ∧ exec 1 (Get 0) s = Some s' ∧
    _active_orchestrator_workers s = 0%Z ∧
    _active_orchestrator_workers s' = 1%Z ∧
    _status_update_lock s = None ∧ _status_update_lock s' = None.
Proof.
  eexists. split; [apply pool_reachable_run; constructor|]. by vm_compute.
Qed.

(** C3, amended: the counter changes in two steps only, when a worker
    receives a job (plus one) and when its call of [orchestrator_func]
    ends (minus one); the worker does not hold [_status_update_lock] in
    either, and neither takes it.  The lock is taken by the step that reads
    the counter and calls the sink, made by a worker that has just counted
    its job in or out, and it is released when the sink call ends; these
    steps leave the counter as it is. *)
Theorem active_count_mutated_before_lock
    (num_workers : nat) (s s' : state) (a : action) :
  reachable num_workers s →
  exec num_workers a s = Some s' →
  match a with
  | Enqueue _ =>
      _active_orchestrator_workers s' = _active_orchestrator_workers s ∧
      _status_update_lock s' = _status_update_lock s
  | Get w =>
      _active_orchestrator_workers s' = (_active_orchestrator_workers s + 1)%Z ∧
      _status_update_lock s ≠ Some w ∧
      _status_update_lock s' = _status_update_lock s ∧
      sink s' = sink s ∧
      ∃ j, workers s' !! w = Some (Starting j)
  | Acquire w =>
      _active_orchestrator_workers s' = _active_orchestrator_workers s ∧
      _status_update_lock s = None ∧
      _status_update_lock s' = Some w ∧
      ((∃ j, workers s !! w = Some (Starting j)) ∨
       (∃ b, workers s !! w = Some (Finishing b)))
  | SinkDone w _ =>
      _active_orchestrator_workers s' = _active_orchestrator_workers s ∧
      _status_update_lock s = Some w ∧
      _status_update_lock s' = None
  | FuncDone w _ =>
      _active_orchestrator_workers s' = (_active_orchestrator_workers s - 1)%Z ∧
      _status_update_lock s ≠ Some w ∧
      _status_update_lock s' = _status_update_lock s ∧
      sink s' = sink s ∧
      ∃ b, workers s' !! w = Some (Finishing b)
  end.
Proof.
  intros [Hlen Hact Hlh Hhl]%pool_reachable_inv He.
  destruct a as [j|w|w|w o|w o].
  - by exec_inv He.
  - exec_inv He. simpl. repeat split.
    + intros (p & Hp & Hh)%Hlh. by simplify_eq.
    + eexists. apply list_lookup_insert_eq. by eapply lookup_lt_Some.
  - exec_inv He; simpl; repeat split; eauto.
  - exec_inv He; simpl; match goal with |- context [log_sink ?o' ?ok ?s0] =>
      destruct (log_sink_fields o' ok s0) as (_ & -> & -> & _ & _) end.
    all: simpl; repeat split; eapply Hhl; eauto.
  - exec_inv He; simpl; repeat split.
    all: try (intros (p & Hp & Hh)%Hlh; by simplify_eq).
    all: eexists; apply list_lookup_insert_eq; by eapply lookup_lt_Some.
Qed.

Lemma active_count_mutated_before_lock_witness :
  let s := run 1 [Enqueue ∅] (initial 1) in
  ∃ s',
    exec 1 (Get 0) s = Some s' ∧
    _active_orchestrator_workers s' = (_active_orchestrator_workers s + 1)%Z ∧
    _status_update_lock s ≠ Some 0%nat ∧
    _status_update_lock s' = _status_update_lock s ∧
    sink s' = sink s ∧
    ∃ j, workers s' !! 0%nat = Some (Starting j).
Proof.
  eexists. split; [reflexivity|].
  apply (active_count_mutated_before_lock 1 _ _ (Get 0)).
  - apply pool_reachable_run. constructor.
  - reflexivity.
Defined.


(** *** What the lock does guarantee *)

(** At most one worker is inside the call of the sink at any time: two
    workers that hold the lock are the same worker.  So the calls of
    [users_profile_set] never overlap, and the sink receives the statuses
    in the order in which the counter was read. *)
Theorem sink_calls_never_overlap (num_workers : nat) (s : state)
    (w1 w2 : nat) (p1 p2 : pc) :
  reachable num_workers s →
  workers s !! w1 = Some p1 → holding p1 = true →
  workers s !! w2 = Some p2 → holding p2 = true →
  w1 = w2 ∧ _status_update_lock s = Some w1.
Proof.
  intros [_ _ _ Hhl]%pool_reachable_inv H1 Hp1 H2 Hp2.
  pose proof (Hhl _ _ H1 Hp1) as E1. pose proof (Hhl _ _ H2 Hp2) as E2.
  split; [congruence|done].
Qed.

Lemma sink_calls_never_overlap_witness :
  let s := run 2 [Enqueue ∅; Enqueue ∅; Get 0; Get 1; Acquire 1; Acquire 0] (initial 2) in
  workers s = [Starting ∅; Announcing ∅ Busy] ∧
  (1%nat = 1%nat ∧ _status_update_lock s = Some 1%nat).
Proof.
  intros s. split; [reflexivity|].
  apply (sink_calls_never_overlap 2 s 1 1 (Announcing ∅ Busy) (Announcing ∅ Busy)).
  - apply pool_reachable_run. constructor.
  - reflexivity.
  - reflexivity.
  - reflexivity.
  - reflexivity.
Defined.

(** *** The queue of the pool *)

Lemma pool_queue_bounded n s : reachable n s → (length (orchestrator_queue s) ≤ 100)%nat.
Proof.
  induction 1 as [|s s' _ IH [a Ha]]; [simpl; lia|].
  destruct a as [j|w|w|w o|w o].
  - simpl in Ha. destruct (Nat.ltb_spec (length (orchestrator_queue s)) 100); [|done].
    simplify_eq. simpl. rewrite length_app. simpl. lia.
  - simpl in Ha. destruct (workers s !! w) as [[]|]; try done.
    destruct (orchestrator_queue s) as [|j rest]; [done|].
    simplify_eq. simpl in *. lia.
  - by exec_inv Ha.
  - exec_inv Ha; simpl; match goal with |- context [log_sink ?o' ?ok ?s0] =>
      by destruct (log_sink_fields o' ok s0) as (-> & _) end.
  - by exec_inv Ha.
Qed.

(** [orchestrator_queue] never holds more than 100 jobs, and
    [enqueue_orchestrator_job] is held back exactly when it holds 100. *)
Theorem orchestrator_queue_backpressure (num_workers : nat) (s : state) (j : dict) :
  reachable num_workers s →
  (length (orchestrator_queue s) ≤ 100)%nat ∧
  (exec num_workers (Enqueue j) s = None ↔ length (orchestrator_queue s) = 100%nat) ∧
  ∀ s', exec num_workers (Enqueue j) s = Some s' →
    orchestrator_queue s' = orchestrator_queue s ++ [j] ∧
    workers s' = workers s ∧
    _active_orchestrator_workers s' = _active_orchestrator_workers s.
Proof.
  intros Hle%pool_queue_bounded. split; [done|]. simpl.
  destruct (Nat.ltb_spec (length (orchestrator_queue s)) 100); split.
  - split; [done|lia].
  - by intros s' [= <-].
  - split; [lia|done].
  - done.
Qed.

Lemma orchestrator_queue_backpressure_witness :
  let s := run 1 (replicate 101 (Enqueue ∅)) (initial 1) in
  length (orchestrator_queue s) = 100%nat ∧
  exec 1 (Enqueue ∅) s = None.
Proof.
  intros s. split; [by vm_compute|].
  apply (orchestrator_queue_backpressure 1 s ∅).
  - apply pool_reachable_run. constructor.
  - by vm_compute.
Defined.

(** *** A [BaseException] in [orchestrator_func] *)

Lemma dead_stays_dead n a s s' w :
  exec n a s = Some s' → workers s !! w = Some Dead → workers s' !! w = Some Dead.
Proof.
  intros Ha Hw. destruct a as [j|w'|w'|w' o|w' o].
  - by exec_inv Ha.
  - exec_inv Ha. simpl. destruct (decide (w = w')) as [->|]; [congruence|].
    by rewrite list_lookup_insert_ne.
  - exec_inv Ha; simpl; (destruct (decide (w = w')) as [->|]; [congruence|]);
      by rewrite list_lookup_insert_ne.
  - exec_inv Ha; simpl; match goal with |- context [log_sink ?o' ?ok ?s0] =>
      destruct (log_sink_fields o' ok s0) as (_ & _ & _ & -> & _) end; simpl;
      (destruct (decide (w = w')) as [->|]; [congruence|]);
      by rewrite list_lookup_insert_ne.
  - exec_inv Ha; simpl; (destruct (decide (w = w')) as [->|]; [congruence|]);
      by rewrite list_lookup_insert_ne.
Qed.

Lemma dead_stays_dead_run n sched s w :
  workers s !! w = Some Dead → workers (run n sched s) !! w = Some Dead.
Proof.
  revert s. induction sched as [|a sched IH]; intros s Hw; [done|].
  simpl. apply IH. destruct (exec n a s) as [s'|] eqn:Ha; [|done].
  by eapply dead_stays_dead.
Qed.

(** A [BaseException] that is no [Exception], raised by
    [orchestrator_func], is not caught: no error is logged; [finally]
    still counts the job out and makes the second status update; then the
    worker's task ends, and in every continuation the worker takes no job
    again. *)
Theorem base_exception_ends_orchestrator_worker
    (num_workers : nat) (s : state) (w : nat) (j : dict) (e : string) :
  workers s !! w = Some (Running j) →
  ∃ s1, exec num_workers (FuncDone w (RaisedBase e)) s = Some s1 ∧
    _active_orchestrator_workers s1 = (_active_orchestrator_workers s - 1)%Z ∧
    log s1 = log s ++ [(INFO, "[ORCHESTRATOR_WORKER] Finished job")] ∧
    workers s1 = <[w := Finishing true]> (workers s) ∧
    (_status_update_lock s1 = None → ∀ o,
      ∃ s2 s3, exec num_workers (Acquire w) s1 = Some s2 ∧
        exec num_workers (SinkDone w o) s2 = Some s3 ∧
        workers s3 = <[w := Dead]> (workers s) ∧
        ∀ sched,
          workers (run num_workers sched s3) !! w = Some Dead ∧
          exec num_workers (Get w) (run num_workers sched s3) = None).
Proof.
  intros Hw. pose proof (lookup_lt_Some _ _ _ Hw) as Hlt.
  eexists. split; [by simpl; rewrite Hw|]. simpl.
  split; [done|]. split; [done|]. split; [done|].
  intros Hl o. rewrite Hl, list_lookup_insert_eq by done.
  eexists _, _. split; [done|]. simpl.
  rewrite list_lookup_insert_eq by by rewrite length_insert.
  split; [done|].
  match goal with |- context [log_sink ?o' ?ok ?s0] =>
    destruct (log_sink_fields o' ok s0) as (_ & _ & _ & E4 & _);
    set (s3 := log_sink o' ok s0) in * end.
  simpl in E4. rewrite !list_insert_insert_eq in E4.
  split; [done|]. intros sched.
  assert (workers (run num_workers sched s3) !! w = Some Dead) as Hd.
  { apply dead_stays_dead_run. rewrite E4. by apply list_lookup_insert_eq. }
  split; [done|]. simpl. by rewrite Hd.
Qed.

Lemma base_exception_ends_orchestrator_worker_witness :
  let s := run 1 [Enqueue ∅; Get 0; Acquire 0; SinkDone 0 SinkOk] (initial 1) in
  ∃ s1, exec 1 (FuncDone 0 (RaisedBase "CancelledError")) s = Some s1 ∧
    _active_orchestrator_workers s1 = 0%Z ∧
    workers s1 = [Finishing true].
Proof.
  intros s.
  destruct (base_exception_ends_orchestrator_worker 1 s 0 ∅ "CancelledError" eq_refl)
    as (s1 & H1 & H2 & _ & H4 & _).
  exists s1. split; [done|]. split; [exact H2|exact H4].
Defined.

(** Once a worker's task has ended, the pool is never reported busy again:
    every later status update pushes the cleared status, however many jobs
    are queued. *)
Theorem dead_worker_means_never_busy
    (num_workers : nat) (s : state) (w : nat) (sched : list action)
    (w' : nat) (s' : state) :
  reachable num_workers s →
  workers s !! w = Some Dead →
  exec num_workers (Acquire w') (run num_workers sched s) = Some s' →
  sink s' = sink (run num_workers sched s) ++ [Idle].
Proof.
  intros Hs Hw Ha.
  pose proof (pool_reachable_run num_workers sched s Hs) as Hr.
  pose proof (dead_stays_dead_run num_workers sched s w Hw) as Hd.
  set (s1 := run num_workers sched s) in *.
  destruct (pool_reachable_inv _ _ Hr) as [Hlen Hact _ _].
  pose proof (count_lt in_flight s1 w Dead Hd eq_refl) as Hc.
  assert (status_of num_workers (_active_orchestrator_workers s1) = Idle) as Hi.
  { apply status_of_idle. lia. }
  exec_inv Ha; simpl; by rewrite Hi.
Qed.

Lemma dead_worker_means_never_busy_witness :
  let s := run 2 [Enqueue ∅; Get 0; Acquire 0; SinkDone 0 SinkOk;
                  FuncDone 0 (RaisedBase "CancelledError");
                  Acquire 0; SinkDone 0 SinkOk] (initial 2) in
  let s1 := run 2 [Enqueue ∅; Enqueue ∅; Get 1] s in
  workers s1 = [Dead; Starting ∅] ∧
  ∃ s', exec 2 (Acquire 1) s1 = Some s' ∧ sink s' = sink s1 ++ [Idle].
Proof.
  intros s s1. split; [reflexivity|]. eexists. split; [reflexivity|].
  apply (dead_worker_means_never_busy 2 s 0 [Enqueue ∅; Enqueue ∅; Get 1] 1).
  - apply pool_reachable_run. constructor.
  - reflexivity.
  - reflexivity.
Defined.

(** *** A failing sink *)

(** An [Exception] raised by [users_profile_set] is swallowed: the worker
    goes on exactly as after a successful call, with the same queue,
    counter, workers and lock; only the log differs, with a debug line
    when the text of the exception contains [not_allowed_token_type] and a
    warning otherwise. *)
Theorem sink_failure_is_swallowed
    (num_workers : nat) (s s1 : state) (w : nat) (e : string) :
  exec num_workers (SinkDone w (SinkFailed e)) s = Some s1 →
  ∃ s2, exec num_workers (SinkDone w SinkOk) s = Some s2 ∧
    orchestrator_queue s1 = orchestrator_queue s2 ∧
    _active_orchestrator_workers s1 = _active_orchestrator_workers s2 ∧
    _status_update_lock s1 = None ∧ _status_update_lock s2 = None ∧
    workers s1 = workers s2 ∧
    sink s1 = sink s2 ∧
    ∃ rest,
      log s1 =
        log s ++
        (if contains "not_allowed_token_type" e
         then (DEBUG, "[STATUS] Bot status update not supported with current token type")
         else (WARNING, "[STATUS] Failed to update bot status")) :: rest ∧
      Forall (λ x, x.1 = INFO) rest.
Proof.
  intros Ha. simpl in Ha |- *.
  destruct (workers s !! w) as [p|]; [|done].
  destruct p as [|j|j b|j|dying|dying b|]; try done; simplify_eq.
  - eexists. split; [done|]. destruct b; simpl; destruct (contains _ e); simpl.
    all: repeat split; eexists;
      (split; [rewrite <- ?app_assoc; reflexivity|by repeat constructor]).
  - eexists. split; [done|].
    destruct dying, b; simpl; destruct (contains _ e); simpl.
    all: repeat split; eexists;
      (split; [rewrite <- ?app_assoc; reflexivity|by repeat constructor]).
Qed.

Lemma sink_failure_is_swallowed_witness :
  let s := run 1 [Enqueue ∅; Get 0; Acquire 0] (initial 1) in
  ∃ s1, exec 1 (SinkDone 0 (SinkFailed "error: not_allowed_token_type")) s = Some s1 ∧
    workers s1 = [Running ∅] ∧
    ∃ s2, exec 1 (SinkDone 0 SinkOk) s = Some s2 ∧ workers s1 = workers s2.
Proof.
  intros s. eexists. split; [reflexivity|]. split; [reflexivity|].
  destruct (sink_failure_is_swallowed 1 s _ 0 "error: not_allowed_token_type" eq_refl)
    as (s2 & H1 & _ & _ & _ & _ & H2 & _).
  by exists s2.
Defined.

End Orchestrator.

(** ** The memory lane: one worker on [memory_queue] *)

Module MemoryLane.
Import Py.
Export Dispatcher(level, DEBUG, INFO, WARNING, ERROR).
Export Orchestrator(outcome, Returned, RaisedException, RaisedBase).

(** Where [memory_worker] is suspended: in [memory_queue.get()] (line
    258), in [memory_func(job)] (line 262), or nowhere because a
    [BaseException] ended the task. *)
Inductive pc :=
| Waiting
| Running (j : dict)
| Dead.

(** What an observer of the lane sees, in the order it happens: a put into
    [memory_queue] completes, [memory_func] is called, the call ends. *)
Inductive event :=
| Enqueued (j : dict)
| Started (j : dict)
| Ended (j : dict) (o : outcome).

Record state := State {
  memory_queue : list dict;
  worker : pc;
  trace : list event;
  log : list (level * string)
}.

(** The lane after [start_memory_worker(memory_func)], once its task has
    run up to its first [get]. *)
Definition initial : state :=
  State [] Waiting []
    [(INFO, "[MEMORY_WORKER] Created single worker for sequential memory operations");
     (INFO, "[MEMORY_WORKER] Started");
     (INFO, "[MEMORY_WORKER] Waiting for next job...")].

Inductive action :=
| Enqueue (j : dict)
| Get
| FuncDone (o : outcome).

Definition exec (a : action) (s : state) : option state :=
  match a with
  | Enqueue j =>
      (* enqueue_memory_job: the put goes through when there is room *)
      if Nat.ltb (length (memory_queue s)) 100 then
        Some (State (memory_queue s ++ [j]) (worker s) (trace s ++ [Enqueued j])
                    (log s ++ [(INFO, "[MEMORY_QUEUE] Job enqueued")]))
      else None
  | Get =>
      (* lines 258-262: the job arrives and [memory_func(job)] is called *)
      match worker s, memory_queue s with
      | Waiting, j :: rest =>
          Some (State rest (Running j) (trace s ++ [Started j])
                      (log s ++ [(INFO, "[MEMORY_WORKER] Job received from queue")]))
      | _, _ => None
      end
  | FuncDone o =>
      (* lines 263-267: the call is over; an [Exception] is logged, the
         worker marks the job done and loops; a [BaseException] leaves
         the loop after [task_done] *)
      match worker s with
      | Running j =>
          Some (State (memory_queue s)
                      (match o with RaisedBase _ => Dead | _ => Waiting end)
                      (trace s ++ [Ended j o])
                      (match o with
                       | Returned =>
                           log s ++ [(INFO, "[MEMORY_WORKER] Job completed successfully");
                                     (INFO, "[MEMORY_WORKER] Waiting for next job...")]
                       | RaisedException e =>
                           log s ++ [(ERROR, "[MEMORY_WORKER] Error");
                                     (INFO, "[MEMORY_WORKER] Waiting for next job...")]
                       | RaisedBase e => log s
                       end))
      | _ => None
      end
  end.

Inductive reachable : state → Prop :=
| reachable_initial : reachable initial
| reachable_step s a s' : reachable s → exec a s = Some s' → reachable s'.

(** Runs a schedule; a transition that is not enabled is skipped. *)
Definition run (sched : list action) (s : state) : state :=
  foldl (λ s a, match exec a s with Some s' => s' | None => s end) s sched.

(** The jobs put, called and completed along a trace, in order. *)
Definition enqueued (t : list event) : list dict :=
  omap (λ e, match e with Enqueued j => Some j | _ => None end) t.

Definition started (t : list event) : list dict :=
  omap (λ e, match e with Started j => Some j | _ => None end) t.

Definition ended (t : list event) : list dict :=
  omap (λ e, match e with Ended j _ => Some j | _ => None end) t.

Definition running (p : pc) : list dict :=
  match p with Running j => [j] | _ => [] end.

Lemma enqueued_app t1 t2 : enqueued (t1 ++ t2) = enqueued t1 ++ enqueued t2.
Proof. apply omap_app. Qed.

Lemma started_app t1 t2 : started (t1 ++ t2) = started t1 ++ started t2.
Proof. apply omap_app. Qed.

Lemma ended_app t1 t2 : ended (t1 ++ t2) = ended t1 ++ ended t2.
Proof. apply omap_app. Qed.

(** A trace that grew by one event splits at an earlier event or at the
    new one. *)
Lemma snoc_split {A} (t t1 t2 : list A) (e e' : A) :
  t ++ [e] = t1 ++ e' :: t2 →
  (t1 = t ∧ e' = e ∧ t2 = []) ∨ (∃ t2', t2 = t2' ++ [e] ∧ t = t1 ++ e' :: t2').
Proof.
  destruct t2 as [|x t2 _] using rev_ind.
  - intros H. apply (app_inj_tail t t1 e e') in H as [-> ->]. by left.
  - intros H. right. exists t2.
    change (t ++ [e] = t1 ++ (e' :: t2) ++ [x]) in H. rewrite app_assoc in H.
    apply app_inj_tail in H as [-> ->]. done.
Qed.

(** The lane's history is well formed: the jobs called are the jobs put,
    less those still queued; the jobs completed are the jobs called, less
    the one running; and every call is made when all earlier calls have
    ended, on the oldest job not yet called. *)
Record inv (s : state) : Prop := Inv {
  inv_queue : enqueued (trace s) = started (trace s) ++ memory_queue s;
  inv_running : started (trace s) = ended (trace s) ++ running (worker s);
  inv_calls t1 j t2 :
    trace s = t1 ++ Started j :: t2 →
    ended t1 = started t1 ∧ ∃ rest, enqueued t1 = started t1 ++ j :: rest
}.

Lemma lane_inv_initial : inv initial.
Proof. split; [done..|]. intros [|??] ???; simplify_eq/=. Qed.

Lemma lane_inv_exec a s s' : inv s → exec a s = Some s' → inv s'.
Proof.
  intros [Hq Hr Hc] He. destruct a as [j| |o]; simpl in He.
  - case_match; simplify_eq. split; simpl.
    + by rewrite enqueued_app, started_app, Hq, app_nil_r, app_assoc.
    + by rewrite started_app, ended_app, !app_nil_r.
    + intros t1 j' t2 [(_ & ? & _)|(t2' & -> & Ht)]%snoc_split; [done|eauto].
  - destruct (worker s) eqn:Hw; [|done..].
    destruct (memory_queue s) as [|j rest] eqn:Hm; simplify_eq.
    simpl in Hr. rewrite app_nil_r in Hr.
    split; simpl.
    + rewrite enqueued_app, started_app, Hq, app_nil_r. simpl. by rewrite <- app_assoc.
    + by rewrite started_app, ended_app, Hr, app_nil_r.
    + intros t1 j' t2 [(-> & ? & _)|(t2' & -> & Ht)]%snoc_split; [|eauto].
      simplify_eq. split; [done|eauto].
  - destruct (worker s) eqn:Hw; simplify_eq.
    split; simpl.
    + by rewrite enqueued_app, started_app, Hq, !app_nil_r.
    + rewrite started_app, ended_app, Hr, !app_nil_r. simpl.
      rewrite <- app_assoc. by destruct o; rewrite app_nil_r.
    + intros t1 j' t2 [(_ & ? & _)|(t2' & -> & Ht)]%snoc_split; [done|eauto].
Qed.

Lemma lane_reachable_inv s : reachable s → inv s.
Proof. induction 1; [apply lane_inv_initial|by eapply lane_inv_exec]. Qed.

Lemma lane_reachable_run sched s : reachable s → reachable (run sched s).
Proof.
  revert s. induction sched as [|a sched IH]; intros s Hs; [done|].
  simpl. apply IH. destruct (exec a s) as [s'|] eqn:He; [|done].
  by eapply reachable_step.
Qed.

(** C6. Whenever [memory_func] is called in a run of the lane, the job
    it is called on is the k-th job put into [memory_queue], where k calls
    were made before; every job put before it has had its call ended
    before this call starts; and all earlier calls have ended, so that no
    two calls overlap. *)
Theorem memory_jobs_run_in_order_without_overlap
    (s : state) (t1 t2 : list event) (j : dict) :
  reachable s →
  trace s = t1 ++ Started j :: t2 →
  let k := length (started t1) in
  enqueued (trace s) !! k = Some j ∧
  (∀ i j1, (i < k)%nat → enqueued (trace s) !! i = Some j1 → ended t1 !! i = Some j1) ∧
  ended t1 = started t1.
Proof.
  intros [_ _ Hc]%lane_reachable_inv Ht. destruct (Hc _ _ _ Ht) as (He & rest & Hq).
  rewrite Ht, enqueued_app, Hq, <- !app_assoc. simpl. split; [|split; [|done]].
  - by rewrite lookup_app_r, Nat.sub_diag.
  - intros i j1 Hi. rewrite lookup_app_l by done. by rewrite He.
Qed.

Lemma memory_jobs_run_in_order_without_overlap_witness :
  let a : dict := {["kind" := Some "a"]} in
  let b : dict := {["kind" := Some "b"]} in
  let s := run [Enqueue a; Enqueue b; Get; FuncDone Returned; Get] initial in
  let t1 := [Enqueued a; Enqueued b; Started a; Ended a Returned] in
  trace s = t1 ++ [Started b] ∧
  enqueued (trace s) !! 1%nat = Some b ∧
  (∀ i j1, (i < 1)%nat → enqueued (trace s) !! i = Some j1 → ended t1 !! i = Some j1) ∧
  ended t1 = started t1.
Proof.
  intros a b s t1. split; [reflexivity|].
  apply (memory_jobs_run_in_order_without_overlap s t1 [] b).
  - apply lane_reachable_run. constructor.
  - reflexivity.
Defined.

(** An [Exception] raised by [memory_func] is logged and the worker waits
    for the next job, with [memory_queue] as it was. *)
Lemma memory_worker_survives_exception s j e :
  worker s = Running j →
  ∃ s1, exec (FuncDone (RaisedException e)) s = Some s1 ∧
    worker s1 = Waiting ∧ memory_queue s1 = memory_queue s ∧
    log s1 = log s ++ [(ERROR, "[MEMORY_WORKER] Error");
                       (INFO, "[MEMORY_WORKER] Waiting for next job...")].
Proof. intros Hw. eexists. split; [by simpl; rewrite Hw|done]. Qed.

(** *** No job is lost or run twice *)

(** The jobs put into [memory_queue] so far are, in order, the jobs whose
    call has ended, the job being processed if there is one, and the jobs
    still queued: none is dropped, duplicated or overtaken, whether the
    calls returned or raised. *)
Theorem memory_jobs_are_conserved (s : state) :
  reachable s →
  enqueued (trace s) = ended (trace s) ++ running (worker s) ++ memory_queue s.
Proof.
  intros [Hq Hr _]%lane_reachable_inv. by rewrite Hq, Hr, <- app_assoc.
Qed.

Lemma memory_jobs_are_conserved_witness :
  let a : dict := {["kind" := Some "a"]} in
  let b : dict := {["kind" := Some "b"]} in
  let c : dict := {["kind" := Some "c"]} in
  let s := run [Enqueue a; Enqueue b; Get; FuncDone (RaisedException "boom");
                Enqueue c; Get] initial in
  ended (trace s) = [a] ∧ running (worker s) = [b] ∧ memory_queue s = [c] ∧
  enqueued (trace s) = ended (trace s) ++ running (worker s) ++ memory_queue s.
Proof.
  intros a b c s. split; [reflexivity|]. split; [reflexivity|]. split; [reflexivity|].
  apply (memory_jobs_are_conserved s). apply lane_reachable_run. constructor.
Defined.

(** *** Backpressure *)

Lemma lane_queue_bounded s : reachable s → (length (memory_queue s) ≤ 100)%nat.
Proof.
  induction 1 as [|s a s' _ IH Ha]; [simpl; lia|].
  destruct a as [j| |o]; simpl in Ha.
  - destruct (Nat.ltb_spec (length (memory_queue s)) 100); [|done].
    simplify_eq. simpl. rewrite length_app. simpl. lia.
  - destruct (worker s); try done. destruct (memory_queue s); [done|].
    simplify_eq. simpl in *. lia.
  - destruct (worker s); by simplify_eq.
Qed.

(** [memory_queue] never holds more than 100 jobs, and [enqueue_memory_job]
    is held back exactly when it holds 100. *)
Theorem memory_queue_backpressure (s : state) (j : dict) :
  reachable s →
  (length (memory_queue s) ≤ 100)%nat ∧
  (exec (Enqueue j) s = None ↔ length (memory_queue s) = 100%nat).
Proof.
  intros Hle%lane_queue_bounded. split; [done|]. simpl.
  destruct (Nat.ltb_spec (length (memory_queue s)) 100); split; (done || lia).
Qed.

Lemma memory_queue_backpressure_witness :
  let s := run (replicate 100 (Enqueue ∅)) initial in
  (length (memory_queue s) ≤ 100)%nat ∧
  (exec (Enqueue ∅) s = None ↔ length (memory_queue s) = 100%nat).
Proof.
  intros s. apply (memory_queue_backpressure s ∅).
  apply lane_reachable_run. constructor.
Defined.

(** *** A [BaseException] in [memory_func] *)

Lemma lane_dead_stays_dead a s s' :
  exec a s = Some s' → worker s = Dead →
  worker s' = Dead ∧ started (trace s') = started (trace s) ∧
  ended (trace s') = ended (trace s).
Proof.
  intros Ha Hw. destruct a as [j| |o]; simpl in Ha; rewrite ?Hw in Ha; [|done..].
  case_match; simplify_eq. simpl. by rewrite started_app, ended_app, !app_nil_r.
Qed.

Lemma lane_dead_stays_dead_run sched s :
  worker s = Dead →
  worker (run sched s) = Dead ∧ started (trace (run sched s)) = started (trace s) ∧
  ended (trace (run sched s)) = ended (trace s).
Proof.
  revert s. induction sched as [|a sched IH]; intros s Hw; [done|].
  simpl. destruct (exec a s) as [s'|] eqn:Ha; [|by apply IH].
  destruct (lane_dead_stays_dead _ _ _ Ha Hw) as (Hw' & <- & <-). by apply IH.
Qed.

(** A [BaseException] that is no [Exception], raised by [memory_func], is
    not caught and nothing is logged: after [task_done] the task of the
    only worker ends.  From then on no call of [memory_func] is ever made
    again: the jobs in [memory_queue], and those put later, stay there. *)
Theorem base_exception_halts_memory_lane (s : state) (j : dict) (e : string) :
  worker s = Running j →
  ∃ s1, exec (FuncDone (RaisedBase e)) s = Some s1 ∧
    worker s1 = Dead ∧
    log s1 = log s ∧
    memory_queue s1 = memory_queue s ∧
    ∀ sched,
      worker (run sched s1) = Dead ∧
      started (trace (run sched s1)) = started (trace s1) ∧
      exec Get (run sched s1) = None.
Proof.
  intros Hw. eexists. split; [by simpl; rewrite Hw|]. simpl.
  split; [done|]. split; [done|]. split; [done|]. intros sched.
  match goal with |- worker (run sched ?s1) = _ ∧ _ =>
    destruct (lane_dead_stays_dead_run sched s1 eq_refl) as (Hd & Hs & _) end.
  split; [done|]. split; [done|]. simpl. by rewrite Hd.
Qed.

Lemma base_exception_halts_memory_lane_witness :
  let a : dict := {["kind" := Some "a"]} in
  let s := run [Enqueue a; Enqueue a; Get] initial in
  ∃ s1, exec (FuncDone (RaisedBase "CancelledError")) s = Some s1 ∧
    worker s1 = Dead ∧ memory_queue s1 = [a].
Proof.
  intros a s.
  destruct (base_exception_halts_memory_lane s a "CancelledError" eq_refl)
    as (s1 & H1 & H2 & _ & H4 & _).
  exists s1. split; [done|]. split; [done|]. exact H4.
Defined.

End MemoryLane.

(** ** The channel workers and their monitor *)

Module ChannelWorkers.
Import Py.
Export Dispatcher(level, DEBUG, INFO, WARNING, ERROR, job, Job, message).
Export Orchestrator(outcome, Returned, RaisedException, RaisedBase).

(** Where a [channel_worker] is suspended: in [queue.get()] (line 147), in
    [process_func(message, client)] (line 151), or nowhere because a
    [BaseException] ended the task. *)
Inductive pc :=
| Waiting
| Running (m : dict)
| Dead.

(** A task running [channel_worker(channel_id, queue, worker_id)]; the
    queue is the object the monitor found in [message_queues]. *)
Record worker := Worker {
  channel_id : value;
  queue : nat;
  worker_id : nat;
  at_pc : pc
}.

Record state := State {
  dispatcher : Dispatcher.state;
  monitored_channels : gset value;
  workers : list worker
}.

(** After [start_channel_workers(app, process_func, workers_per_channel)]:
    the monitor sleeps, nothing is monitored. *)
Definition initial : state := State Dispatcher.initial ∅ [].

Definition logging (l : level) (msg : string) (s : state) : state :=
  State (Dispatcher.state_of (Dispatcher.logging l msg (dispatcher s)))
        (monitored_channels s) (workers s).

(** [list(message_queues.items())]: a dict lists its items in the order
    the keys were inserted, which is the order in which their queues were
    allocated; [older] compares two items by it. *)
Definition older (a b : value * nat) : Prop := (a.2 ≤ b.2)%nat.

#[export] Instance older_dec : RelDecision older.
Proof. intros a b. unfold older. apply _. Defined.

Definition items (d : Dispatcher.state) : list (value * nat) :=
  merge_sort older (map_to_list (Dispatcher.message_queues d)).

(** Lines 165-171: the channels the monitor does not know yet. *)
Definition new_channels (s : state) : list (value * nat) :=
  filter (λ kq, kq.1 ∉ monitored_channels s) (items (dispatcher s)).

(** Lines 168-169. *)
Definition spawn (workers_per_channel : nat) (kq : value * nat) : list worker :=
  (λ i, Worker kq.1 kq.2 i Waiting) <$> seq 0 workers_per_channel.

Inductive action :=
| Dispatch (o : Dispatcher.op)
| Monitor
| Get (w : nat)
| FuncDone (w : nat) (o : outcome).

Definition exec (workers_per_channel : nat) (a : action) (s : state) : option state :=
  match a with
  | Dispatch (Dispatcher.WorkerGet _) => None
  | Dispatch o =>
      (* the producers' side and the clock *)
      Some (State (Dispatcher.exec o (dispatcher s)) (monitored_channels s) (workers s))
  | Monitor =>
      (* lines 163-171: the monitor wakes up, spawns the workers of every
         new channel and sleeps again; the new tasks then run up to their
         first [get] *)
      let new := new_channels s in
      let tasks := new ≫= spawn workers_per_channel in
      Some (State
        (Dispatcher.set_log
           (Dispatcher.log (dispatcher s) ++
            ((λ _, (INFO, "[MONITOR] Spawned workers for new channel")) <$> new) ++
            ((λ _, (INFO, "[CHANNEL_WORKER] Started worker for channel")) <$> tasks))
           (dispatcher s))
        (monitored_channels s ∪ list_to_set (new.*1))
        (workers s ++ tasks))
  | Get w =>
      (* lines 147-151: the job arrives and [process_func] is called *)
      match workers s !! w with
      | Some (Worker k q i Waiting) =>
          match Dispatcher.queue_get q (dispatcher s) with
          | Some (j, d) =>
              Some (logging INFO "[CHANNEL_WORKER] Processing message"
                      (State d (monitored_channels s)
                             (<[w := Worker k q i (Running (message j))]> (workers s))))
          | None => None
          end
      | _ => None
      end
  | FuncDone w o =>
      (* lines 151-156: the call is over; [except Exception] logs an
         [Exception]; after [task_done] the worker loops, or ends with the
         [BaseException] *)
      match workers s !! w with
      | Some (Worker k q i (Running m)) =>
          let s1 :=
            State (dispatcher s) (monitored_channels s)
                  (<[w := Worker k q i (match o with RaisedBase _ => Dead | _ => Waiting end)]>
                     (workers s)) in
          Some (match o with
                | RaisedException e => logging ERROR "[CHANNEL_WORKER] Error in channel" s1
                | _ => s1
                end)
      | _ => None
      end
  end.

Inductive reachable (workers_per_channel : nat) : state → Prop :=
| reachable_initial : reachable workers_per_channel initial
| reachable_step s a s' :
    reachable workers_per_channel s → exec workers_per_channel a s = Some s' →
    reachable workers_per_channel s'.

(** Runs a schedule; a transition that is not enabled is skipped. *)
Definition run (workers_per_channel : nat) (sched : list action) (s : state) : state :=
  foldl (λ s a, match exec workers_per_channel a s with Some s' => s' | None => s end) s sched.




(** *** The monitor gives every channel its workers *)

(** What a worker was created with: its channel, its queue object and its
    number. *)
Definition slot (wk : worker) : value * nat * nat :=
  (channel_id wk, queue wk, worker_id wk).

Definition slots (s : state) : list (value * nat * nat) := slot <$> workers s.

(** The slots of the workers of channel [k]. *)
Definition slots_of (k : value) (l : list (value * nat * nat)) : list (value * nat * nat) :=
  filter (λ x, x.1.1 = k) l.

Lemma slots_of_app k l1 l2 : slots_of k (l1 ++ l2) = slots_of k l1 ++ slots_of k l2.
Proof. apply filter_app. Qed.

Lemma slots_of_nil k l : (∀ x, x ∈ l → x.1.1 ≠ k) → slots_of k l = [].
Proof.
  intros Hl. unfold slots_of. induction l as [|x l IH]; [done|].
  rewrite filter_cons. rewrite decide_False by (apply Hl; left).
  apply IH. intros y Hy. apply Hl. by right.
Qed.

Lemma slots_spawn n kq : slot <$> spawn n kq = (λ i, (kq.1, kq.2, i)) <$> seq 0 n.
Proof. unfold spawn. by rewrite <- list_fmap_compose. Qed.

Lemma slots_of_spawn_eq n kq : slots_of kq.1 (slot <$> spawn n kq) = slot <$> spawn n kq.
Proof.
  rewrite slots_spawn. unfold slots_of. generalize 0%nat.
  induction n as [|n IH]; intros a; [done|].
  simpl. rewrite filter_cons. rewrite decide_True by done. by rewrite IH.
Qed.

Lemma slots_of_spawn_ne n kq k : kq.1 ≠ k → slots_of k (slot <$> spawn n kq) = [].
Proof.
  intros Hne. apply slots_of_nil. intros x. rewrite slots_spawn.
  intros (i & -> & _)%list_elem_of_fmap. done.
Qed.

Lemma slots_bind n (new : list (value * nat)) :
  slot <$> (new ≫= spawn n) = new ≫= (λ kq, slot <$> spawn n kq).
Proof.
  induction new as [|kq new IH]; [done|]. by rewrite !bind_cons, fmap_app, IH.
Qed.

Lemma slots_of_new n k q (new : list (value * nat)) :
  NoDup (new.*1) → (k, q) ∈ new →
  slots_of k (slot <$> (new ≫= spawn n)) = (λ i, (k, q, i)) <$> seq 0 n.
Proof.
  rewrite slots_bind. induction new as [|kq new IH]; intros Hnd Hin.
  - by apply elem_of_nil in Hin.
  - rewrite fmap_cons in Hnd. apply NoDup_cons in Hnd as [Hnot Hnd].
    rewrite bind_cons, slots_of_app.
    apply elem_of_cons in Hin as [<-|Hin].
    + change k with ((k, q).1) at 1. rewrite slots_of_spawn_eq, slots_spawn.
      rewrite slots_of_nil; [by rewrite app_nil_r|].
      intros x (kq' & Hx & Hkq')%list_elem_of_bind Hk.
      rewrite slots_spawn in Hx. apply list_elem_of_fmap in Hx as (i & -> & _).
      apply Hnot. apply list_elem_of_fmap. exists kq'. by split.
    + rewrite slots_of_spawn_ne; [by apply IH|].
      intros Hk. apply Hnot. subst. apply list_elem_of_fmap. by exists (kq.1, q).
Qed.

Lemma slots_of_new_other n k (new : list (value * nat)) :
  k ∉ new.*1 → slots_of k (slot <$> (new ≫= spawn n)) = [].
Proof.
  intros Hk. apply slots_of_nil. intros x. rewrite slots_bind.
  intros (kq & Hx & Hkq)%list_elem_of_bind Heq.
  rewrite slots_spawn in Hx. apply list_elem_of_fmap in Hx as (i & -> & _).
  simpl in Heq. subst. apply Hk. apply list_elem_of_fmap. by exists kq.
Qed.

Lemma elem_of_items d k q :
  (k, q) ∈ items d ↔ Dispatcher.message_queues d !! k = Some q.
Proof.
  unfold items. rewrite merge_sort_Permutation. apply elem_of_map_to_list.
Qed.

Lemma NoDup_items d : NoDup ((items d).*1).
Proof.
  unfold items. rewrite merge_sort_Permutation. apply NoDup_fst_map_to_list.
Qed.

Lemma slots_insert (l : list worker) w wk wk' :
  l !! w = Some wk → slot wk' = slot wk → slot <$> <[w := wk']> l = slot <$> l.
Proof.
  intros Hw Hs. rewrite list_fmap_insert, Hs. apply list_insert_id.
  by rewrite list_lookup_fmap, Hw.
Qed.

(** Every monitored channel is registered and has exactly
    [workers_per_channel] workers, numbered from 0 and bound to the queue
    object registered for it; a channel that is not monitored has none. *)
Record monitored_wf (n : nat) (s : state) : Prop := MonitoredWf {
  wf_workers k :
    k ∈ monitored_channels s →
    ∃ q, Dispatcher.message_queues (dispatcher s) !! k = Some q ∧
      slots_of k (slots s) = (λ i, (k, q, i)) <$> seq 0 n;
  wf_channel x : x ∈ slots s → x.1.1 ∈ monitored_channels s
}.

Lemma monitored_wf_same n s s' :
  monitored_channels s' = monitored_channels s →
  slots s' = slots s →
  (∀ k q, Dispatcher.message_queues (dispatcher s) !! k = Some q →
          Dispatcher.message_queues (dispatcher s') !! k = Some q) →
  monitored_wf n s → monitored_wf n s'.
Proof.
  intros Hm Hs Hq [H1 H2]. split; rewrite Hm, Hs; [|done].
  intros k Hk. destruct (H1 k Hk) as (q & Hkq & Hsl). eauto.
Qed.

Lemma monitored_wf_monitor n s s' :
  exec n Monitor s = Some s' → monitored_wf n s →
  monitored_wf n s' ∧
  monitored_channels s' =
    monitored_channels s ∪ dom (Dispatcher.message_queues (dispatcher s)).
Proof.
  intros [= <-] [H1 H2].
  pose proof (NoDup_items (dispatcher s)) as Hnd.
  assert (NoDup ((new_channels s).*1)) as Hnd'.
  { unfold new_channels. eapply NoDup_fmap_fst.
    - intros k q1 q2 [_ Hq1%elem_of_items]%list_elem_of_filter
                     [_ Hq2%elem_of_items]%list_elem_of_filter. congruence.
    - apply NoDup_filter. eapply NoDup_fmap_1, Hnd. }
  assert (∀ k, k ∈ (new_channels s).*1 ↔
    (k ∉ monitored_channels s) ∧
    is_Some (Dispatcher.message_queues (dispatcher s) !! k))
    as Hnew.
  { intros k. unfold new_channels. rewrite list_elem_of_fmap. split.
    - intros ([k' q] & -> & [Hk Hq%elem_of_items]%list_elem_of_filter). eauto.
    - intros [Hk [q Hq]]. exists (k, q). split; [done|].
      apply list_elem_of_filter. split; [done|]. by apply elem_of_items. }
  split; [split|]; simpl.
  - intros k Hk. unfold slots. simpl. rewrite fmap_app, slots_of_app.
    destruct (decide (k ∈ monitored_channels s)) as [Hold|Hnot].
    + destruct (H1 k Hold) as (q & Hq & Hsl). exists q. split; [done|].
      unfold slots in Hsl. rewrite Hsl, slots_of_new_other; [by rewrite app_nil_r|].
      rewrite Hnew. by intros [? _].
    + apply elem_of_union in Hk as [?|Hk]; [done|].
      apply elem_of_list_to_set in Hk. pose proof Hk as Hk'.
      apply Hnew in Hk' as [_ [q Hq]]. exists q. split; [done|].
      rewrite slots_of_nil.
      * apply (slots_of_new n k q); [done|]. unfold new_channels.
        apply list_elem_of_filter. split; [done|]. by apply elem_of_items.
      * intros x Hx Heq. apply H2 in Hx. by subst.
  - intros x. unfold slots. simpl. rewrite fmap_app, elem_of_app.
    intros [Hx|Hx]; [apply elem_of_union_l; by apply H2|].
    apply elem_of_union_r, elem_of_list_to_set.
    rewrite slots_bind in Hx. apply list_elem_of_bind in Hx as (kq & Hx & Hkq).
    rewrite slots_spawn in Hx. apply list_elem_of_fmap in Hx as (i & -> & _).
    simpl. apply list_elem_of_fmap. by exists kq.
  - apply set_eq. intros k. rewrite !elem_of_union, elem_of_list_to_set, Hnew, elem_of_dom.
    destruct (decide (k ∈ monitored_channels s)); [|tauto].
    split; [by left|by left].
Qed.

Lemma monitored_wf_exec n a s s' :
  exec n a s = Some s' → monitored_wf n s → monitored_wf n s'.
Proof.
  intros Ha Hwf. destruct a as [o| |w|w o].
  - assert (s' = State (Dispatcher.exec o (dispatcher s)) (monitored_channels s) (workers s))
      as ->.
    { destruct o; first [discriminate Ha | by injection Ha as <-]. }
    apply (monitored_wf_same n s); [done|done| |done]. simpl.
    apply (proj1 (proj1 (Dispatcher.grows_exec o (dispatcher s)))).
  - by eapply monitored_wf_monitor.
  - simpl in Ha. destruct (workers s !! w) as [[k q i []]|] eqn:Hw; try done.
    unfold Dispatcher.queue_get in Ha.
    destruct (Dispatcher.heap (dispatcher s) !! q) as [Q|]; [|done].
    destruct (Dispatcher.items Q); simplify_eq.
    apply (monitored_wf_same n s); [done| |done|done].
    unfold slots. simpl. by eapply slots_insert.
  - simpl in Ha. destruct (workers s !! w) as [[k q i []]|] eqn:Hw; try done.
    simplify_eq. apply (monitored_wf_same n s); [| | |done].
    + by destruct o.
    + unfold slots. destruct o; simpl; by eapply slots_insert.
    + by destruct o.
Qed.

Lemma channel_reachable_wf n s : reachable n s → monitored_wf n s.
Proof.
  induction 1 as [|s a s' _ IH Ha]; [|by eapply monitored_wf_exec].
  split; simpl; [set_solver|]. intros x Hx. by apply elem_of_nil in Hx.
Qed.

Lemma channel_reachable_run n sched s : reachable n s → reachable n (run n sched s).
Proof.
  revert s. induction sched as [|a sched IH]; intros s Hs; [done|].
  simpl. apply IH. destruct (exec n a s) as [s'|] eqn:He; [|done].
  by eapply reachable_step.
Qed.

(** However the producers, the monitor and the workers interleave, the
    workers of a channel [k] are exactly these: none while the monitor has
    not seen the channel, and from then on [workers_per_channel] of them,
    numbered from 0, created once, all bound to the queue object that
    [message_queues] holds for [k]. *)
Theorem each_channel_has_its_workers (workers_per_channel : nat) (s : state) (k : value) :
  reachable workers_per_channel s →
  if decide (k ∈ monitored_channels s) then
    ∃ q, Dispatcher.message_queues (dispatcher s) !! k = Some q ∧
      slot <$> filter (λ wk, channel_id wk = k) (workers s) =
        (λ i, (k, q, i)) <$> seq 0 workers_per_channel
  else filter (λ wk, channel_id wk = k) (workers s) = [].
Proof.
  intros [H1 H2]%channel_reachable_wf.
  assert (∀ l, slot <$> filter (λ wk, channel_id wk = k) l = slots_of k (slot <$> l)) as Hf.
  { induction l as [|wk l IH]; [done|]. unfold slots_of in *. rewrite fmap_cons, !filter_cons.
    simpl. case_decide; [by rewrite fmap_cons, IH|done]. }
  case_decide as Hk.
  - destruct (H1 k Hk) as (q & Hq & Hsl). exists q. split; [done|]. by rewrite Hf.
  - apply (fmap_nil_inv slot). rewrite Hf. apply slots_of_nil.
    intros x Hx Heq. apply H2 in Hx. by subst.
Qed.

Lemma each_channel_has_its_workers_witness :
  let s := run 2 [Dispatch (Dispatcher.Enqueue (Dispatcher.slack_message "C1" "U1" "a"));
                  Dispatch (Dispatcher.Enqueue (Dispatcher.slack_message "C2" "U1" "b"));
                  Monitor] initial in
  ∃ q, Dispatcher.message_queues (dispatcher s) !! Some "C2" = Some q ∧
    slot <$> filter (λ wk, channel_id wk = Some "C2") (workers s) =
      (λ i, (Some "C2", q, i)) <$> seq 0 2.
Proof.
  intros s.
  pose proof (each_channel_has_its_workers 2 s (Some "C2")
                (channel_reachable_run 2 _ _ (reachable_initial 2))) as H.
  rewrite decide_True in H; [exact H|]. by vm_compute.
Defined.

Lemma filter_none {A} (P : A → Prop) `{∀ x, Decision (P x)} (l : list A) :
  (∀ x, x ∈ l → ¬ P x) → filter P l = [].
Proof.
  intros Hl. induction l as [|x l IH]; [done|].
  rewrite filter_cons. rewrite decide_False by (apply Hl; left).
  apply IH. intros y Hy. apply Hl. by right.
Qed.

(** A pass of the monitor covers every channel registered by then, and a
    second pass right after it creates nothing: the workers of a channel
    are spawned once. *)
Theorem monitor_pass_is_idempotent (workers_per_channel : nat) (s s1 : state) :
  reachable workers_per_channel s →
  exec workers_per_channel Monitor s = Some s1 →
  monitored_channels s1 =
    monitored_channels s ∪ dom (Dispatcher.message_queues (dispatcher s)) ∧
  ∃ s2, exec workers_per_channel Monitor s1 = Some s2 ∧
    workers s2 = workers s1 ∧ monitored_channels s2 = monitored_channels s1.
Proof.
  intros Hwf%channel_reachable_wf Ha.
  destruct (monitored_wf_monitor _ _ _ Ha Hwf) as [_ Hm]. split; [done|].
  assert (new_channels s1 = []) as Hnew.
  { unfold new_channels. apply filter_none.
    intros [k q] Hkq Hk. apply Hk.
    rewrite Hm. apply elem_of_union_r, elem_of_dom. exists q.
    apply elem_of_items in Hkq. by injection Ha as <-. }
  eexists. split; [done|]. simpl. rewrite Hnew. simpl.
  split; [by rewrite app_nil_r|by rewrite (right_id_L ∅ (∪))].
Qed.

Lemma monitor_pass_is_idempotent_witness :
  let s := run 2 [Dispatch (Dispatcher.Enqueue (Dispatcher.slack_message "C1" "U1" "a"))]
             initial in
  ∃ s1, exec 2 Monitor s = Some s1 ∧ length (workers s1) = 2%nat ∧
    ∃ s2, exec 2 Monitor s1 = Some s2 ∧
      workers s2 = workers s1 ∧ monitored_channels s2 = monitored_channels s1.
Proof.
  intros s. eexists. split; [reflexivity|]. split; [reflexivity|].
  apply (monitor_pass_is_idempotent 2 s).
  - apply channel_reachable_run. constructor.
  - reflexivity.
Defined.

(** *** What a worker takes *)

(** A channel worker that takes a job takes the oldest job of the queue
    registered for its own channel; the other queues, the registry and the
    other workers are left as they are. *)
Theorem worker_takes_oldest_job_of_its_channel
    (workers_per_channel : nat) (s s' : state) (w : nat) :
  reachable workers_per_channel s →
  exec workers_per_channel (Get w) s = Some s' →
  ∃ k q i Q j rest,
    workers s !! w = Some (Worker k q i Waiting) ∧
    Dispatcher.message_queues (dispatcher s) !! k = Some q ∧
    Dispatcher.heap (dispatcher s) !! q = Some Q ∧
    Dispatcher.items Q = j :: rest ∧
    workers s' = <[w := Worker k q i (Running (message j))]> (workers s) ∧
    Dispatcher.heap (dispatcher s') =
      <[q := Dispatcher.Queue (Dispatcher.maxsize Q) rest]> (Dispatcher.heap (dispatcher s)) ∧
    Dispatcher.message_queues (dispatcher s') = Dispatcher.message_queues (dispatcher s).
Proof.
  intros [H1 H2]%channel_reachable_wf Ha. simpl in Ha.
  destruct (workers s !! w) as [[k q i []]|] eqn:Hw; try done.
  unfold Dispatcher.queue_get in Ha.
  destruct (Dispatcher.heap (dispatcher s) !! q) as [Q|] eqn:HQ; [|done].
  destruct (Dispatcher.items Q) as [|j rest] eqn:Hi; simplify_eq.
  exists k, q, i, Q, j, rest. repeat split; try done.
  assert ((k, q, i) ∈ slots s) as Hin.
  { unfold slots. apply list_elem_of_fmap. exists (Worker k q i Waiting).
    split; [done|]. by eapply list_elem_of_lookup_2. }
  destruct (H1 k (H2 _ Hin)) as (q' & Hq' & Hsl).
  assert ((k, q, i) ∈ slots_of k (slots s)) as Hin'.
  { apply list_elem_of_filter. by split. }
  rewrite Hsl in Hin'. apply list_elem_of_fmap in Hin' as (i' & Heq & _).
  by simplify_eq.
Qed.

Lemma worker_takes_oldest_job_of_its_channel_witness :
  let a := Dispatcher.slack_message "C1" "U1" "a" in
  let b := Dispatcher.slack_message "C1" "U1" "b" in
  let s := run 2 [Dispatch (Dispatcher.Enqueue a); Dispatch (Dispatcher.Enqueue b); Monitor]
             initial in
  ∃ s', exec 2 (Get 1) s = Some s' ∧
    workers s' = [Worker (Some "C1") 0 0 Waiting; Worker (Some "C1") 0 1 (Running a)] ∧
    ∃ k q i Q j rest,
      workers s !! 1%nat = Some (Worker k q i Waiting) ∧
      Dispatcher.message_queues (dispatcher s) !! k = Some q ∧
      Dispatcher.heap (dispatcher s) !! q = Some Q ∧
      Dispatcher.items Q = j :: rest ∧
      workers s' = <[1%nat := Worker k q i (Running (message j))]> (workers s) ∧
      Dispatcher.heap (dispatcher s') =
        <[q := Dispatcher.Queue (Dispatcher.maxsize Q) rest]>
          (Dispatcher.heap (dispatcher s)) ∧
      Dispatcher.message_queues (dispatcher s') = Dispatcher.message_queues (dispatcher s).
Proof.
  intros a b s. eexists. split; [reflexivity|]. split; [reflexivity|].
  apply (worker_takes_oldest_job_of_its_channel 2 s _ 1).
  - apply channel_reachable_run. constructor.
  - reflexivity.
Defined.

(** *** A [BaseException] in [process_func] *)

Lemma channel_dead_stays_dead n a s s' w k q i :
  exec n a s = Some s' →
  workers s !! w = Some (Worker k q i Dead) →
  workers s' !! w = Some (Worker k q i Dead).
Proof.
  intros Ha Hw. destruct a as [o| |w'|w' o].
  - destruct o; first [discriminate Ha | by injection Ha as <-].
  - injection Ha as <-. simpl. by apply lookup_app_l_Some.
  - simpl in Ha. destruct (workers s !! w') as [[k' q' i' []]|] eqn:Hw'; try done.
    destruct (Dispatcher.queue_get q' (dispatcher s)) as [[j d]|]; simplify_eq.
    simpl. destruct (decide (w = w')) as [->|]; [congruence|].
    by rewrite list_lookup_insert_ne.
  - simpl in Ha. destruct (workers s !! w') as [[k' q' i' []]|] eqn:Hw'; try done.
    simplify_eq. destruct (decide (w = w')) as [->|]; [congruence|].
    destruct o; simpl; by rewrite list_lookup_insert_ne.
Qed.

(** A [BaseException] that is no [Exception], raised by [process_func], is
    not caught and nothing is logged: after [task_done] the worker's task
    ends.  The queues and the other workers are left as they are; in every
    continuation this worker stays ended and takes no job, and the monitor
    does not replace it. *)
Theorem base_exception_ends_channel_worker
    (workers_per_channel : nat) (s : state) (w : nat)
    (k : value) (q i : nat) (m : dict) (e : string) :
  workers s !! w = Some (Worker k q i (Running m)) →
  ∃ s1, exec workers_per_channel (FuncDone w (RaisedBase e)) s = Some s1 ∧
    dispatcher s1 = dispatcher s ∧
    workers s1 = <[w := Worker k q i Dead]> (workers s) ∧
    ∀ sched,
      workers (run workers_per_channel sched s1) !! w = Some (Worker k q i Dead) ∧
      exec workers_per_channel (Get w) (run workers_per_channel sched s1) = None.
Proof.
  intros Hw. pose proof (lookup_lt_Some _ _ _ Hw) as Hlt.
  eexists. split; [by simpl; rewrite Hw|]. simpl.
  split; [done|]. split; [done|]. intros sched.
  match goal with |- workers (run _ sched ?s1) !! w = _ ∧ _ =>
    assert (workers (run workers_per_channel sched s1) !! w = Some (Worker k q i Dead))
      as Hd end.
  { match goal with |- workers (run _ sched ?s1) !! w = _ =>
      assert (workers s1 !! w = Some (Worker k q i Dead)) as Hd
        by (by apply list_lookup_insert_eq); revert Hd; generalize s1 end.
    induction sched as [|a sched IH]; intros s1 Hd; [done|].
    simpl. apply IH. destruct (exec workers_per_channel a s1) as [s'|] eqn:Ha; [|done].
    by eapply channel_dead_stays_dead. }
  split; [done|]. simpl. by rewrite Hd.
Qed.

Lemma base_exception_ends_channel_worker_witness :
  let a := Dispatcher.slack_message "C1" "U1" "a" in
  let s := run 2 [Dispatch (Dispatcher.Enqueue a); Monitor; Get 0] initial in
  ∃ s1, exec 2 (FuncDone 0 (RaisedBase "CancelledError")) s = Some s1 ∧
    workers s1 = [Worker (Some "C1") 0 0 Dead; Worker (Some "C1") 0 1 Waiting].
Proof.
  intros a s.
  destruct (base_exception_ends_channel_worker 2 s 0 (Some "C1") 0 0 a "CancelledError"
              eq_refl) as (s1 & H1 & _ & H3 & _).
  exists s1. split; [done|]. exact H3.
Defined.

End ChannelWorkers.
